(** * PK-ZigZag-Backtester: the zigzag detector and the trade enumerator

    A shallow embedding of [src/lib/zigzag.c] ([calculate_zigzag]) and of
    [src/lib/enumerate_trades.c] ([enumerate_trades]), and the properties
    of the two routines.

    Conventions of the embedding.
    - A C [double] is a primitive binary64 float ([PrimFloat.float]): the
      operators [/], [-], [<], [>] and [>=] of the source are the IEEE 754
      ones, so a division by zero yields an infinity or a NaN and a
      comparison with a NaN is false, as in the compiled code.
    - A 1-D numpy buffer is a [list]; [a[i]] is [rd a i]. The [int] arrays
      written by the detector are [list Z] updated in place with
      [<[i := v]>]. Every index the code writes is in range
      (see [prescan_cases], [main_loop_last_extreme_bound]).
    - Loop counters are [nat] (detector) or [Z] (enumerator); lengths and
      [skip_first] are taken to fit the C [int] the source stores them
      in (outside that range the argument parser raises before the body
      of [enumerate_trades] runs).
    - The NULL returns of the source (after [PyErr_SetString]) are the
      [Err] results. *)

From Stdlib Require Import ZArith List Bool Lia Floats.
From stdpp Require Import base list sorting.

Open Scope Z_scope.

(** The result of an entry point: a value, or the error the source raises. *)
Inductive error : Type :=
| LengthMismatch
| SkipFirstOutOfRange.

Inductive result (A : Type) : Type :=
| Ok (a : A)
| Err (e : error).
Arguments Ok {A} a.
Arguments Err {A} e.

(* ================================================================== *)
(** ** ZigZag detector ([src/lib/zigzag.c]) *)
(* ================================================================== *)

Module ZigZag.

(** [a[i]] on a buffer of doubles. *)
Definition rd (a : list float) (i : nat) : float := nth i a 0%float.

(** The comparisons of the source on doubles. *)
Definition flt (x y : float) : bool := (x <? y)%float.
Definition fgt (x y : float) : bool := (y <? x)%float.
Definition fge (x y : float) : bool := (y <=? x)%float.

(** [x / y - 1 >= epsilon], the ratio test used by every trigger. *)
Definition ratio_test (x y epsilon : float) : bool :=
  fge (x / y - 1)%float epsilon.

(** The candidate extremes of the pre-scan phase. *)
Record cand : Type := Cand {
  candidate_low_index : nat;
  candidate_high_index : nat;
  candidate_low : float;
  candidate_high : float
}.

(** The variables that survive the pre-scan, and the two output buffers. *)
Record state : Type := State {
  direction : Z;
  last_extreme_index : nat;
  last_extreme_value : float;
  markers_data : list Z;
  turning_points_data : list Z
}.

Definition set_direction (d : Z) (s : state) : state :=
  State d (last_extreme_index s) (last_extreme_value s)
        (markers_data s) (turning_points_data s).
Definition set_last_extreme_index (k : nat) (s : state) : state :=
  State (direction s) k (last_extreme_value s)
        (markers_data s) (turning_points_data s).
Definition set_last_extreme_value (v : float) (s : state) : state :=
  State (direction s) (last_extreme_index s) v
        (markers_data s) (turning_points_data s).
(** [markers_data[k] = v] *)
Definition set_marker (k : nat) (v : Z) (s : state) : state :=
  State (direction s) (last_extreme_index s) (last_extreme_value s)
        (<[k := v]> (markers_data s)) (turning_points_data s).
(** [turning_points_data[k] = v] *)
Definition set_turning_point (k : nat) (v : Z) (s : state) : state :=
  State (direction s) (last_extreme_index s) (last_extreme_value s)
        (markers_data s) (<[k := v]> (turning_points_data s)).

Section Detector.

Variables highs lows : list float.
Variable epsilon : float.

(** Lines 61-70: both candidates are updated at every index. *)
Definition track (i : nat) (c : cand) : cand :=
  let c1 :=
    if flt (rd lows i) (candidate_low c)
    then Cand i (candidate_high_index c) (rd lows i) (candidate_high c)
    else c in
  if fgt (rd highs i) (candidate_high c1)
  then Cand (candidate_low_index c1) i (candidate_low c1) (rd highs i)
  else c1.

(** Line 73 and line 91, on the candidates already updated at [i]. *)
Definition up_trigger (i : nat) (c : cand) : bool :=
  ratio_test (rd highs i) (candidate_low c) epsilon.
Definition down_trigger (i : nat) (c : cand) : bool :=
  ratio_test (candidate_high c) (rd lows i) epsilon.

(** Lines 74-86: the body of the upward branch. *)
Definition confirm_up (i : nat) (c : cand) (s : state) : state :=
  let s := set_direction 1 s in
  let s := set_last_extreme_index (candidate_low_index c) s in
  let s := set_last_extreme_value (candidate_low c) s in
  let s := set_marker (last_extreme_index s) (-1) s in
  let s := set_turning_point i 1 s in
  let s := set_last_extreme_index (candidate_high_index c) s in
  set_last_extreme_value (candidate_high c) s.

(** Lines 92-104: the body of the downward branch. *)
Definition confirm_down (i : nat) (c : cand) (s : state) : state :=
  let s := set_direction (-1) s in
  let s := set_last_extreme_index (candidate_high_index c) s in
  let s := set_last_extreme_value (candidate_high c) s in
  let s := set_marker (last_extreme_index s) 1 s in
  let s := set_turning_point (last_extreme_index s) (-1) s in
  let s := set_last_extreme_index (candidate_low_index c) s in
  set_last_extreme_value (candidate_low c) s.

(** What the pre-scan loop leaves behind: [trend_detected], the value of
    [i] on leaving the loop, the candidates and the state. *)
Record prescan_out : Type := PrescanOut {
  trend_detected : Z;
  stop_index : nat;
  cands : cand;
  out_state : state
}.

(** The loop of lines 60-107; [n] is the number of iterations left,
    [length - i]. *)
Fixpoint prescan (n i : nat) (c : cand) (s : state) : prescan_out :=
  match n with
  | O => PrescanOut 0 i c s
  | S n' =>
      let c := track i c in
      if up_trigger i c then PrescanOut 1 i c (confirm_up i c s)
      else if down_trigger i c then PrescanOut (-1) i c (confirm_down i c s)
      else prescan n' (S i) c s
  end.

(** Lines 116-146: one iteration of the main loop. *)
Definition main_step (i : nat) (s : state) : state :=
  if direction s =? 1 then
    let s :=
      if ratio_test (last_extreme_value s) (rd lows i) epsilon then
        let s := set_marker (last_extreme_index s) 1 s in
        let s := set_turning_point i (-1) s in
        let s := set_direction (-1) s in
        let s := set_last_extreme_index i s in
        set_last_extreme_value (rd highs (last_extreme_index s)) s
      else s in
    if fgt (rd highs i) (last_extreme_value s)
    then set_last_extreme_value (rd highs i) (set_last_extreme_index i s)
    else s
  else if direction s =? -1 then
    let s :=
      if ratio_test (rd highs i) (last_extreme_value s) epsilon then
        let s := set_marker (last_extreme_index s) (-1) s in
        let s := set_turning_point i 1 s in
        let s := set_direction 1 s in
        let s := set_last_extreme_index i s in
        set_last_extreme_value (rd lows (last_extreme_index s)) s
      else s in
    if flt (rd lows i) (last_extreme_value s)
    then set_last_extreme_value (rd lows i) (set_last_extreme_index i s)
    else s
  else s.

(** The loop of lines 115-147; [n] is the number of iterations left. *)
Fixpoint main_loop (n i : nat) (s : state) : state :=
  match n with
  | O => s
  | S n' => main_loop n' (S i) (main_step i s)
  end.

(** Lines 41-58: the zeroed buffers and the initial variables. *)
Definition init_state (length : nat) : state :=
  State 0 0 0%float (replicate length 0) (replicate length 0).
Definition init_cand : cand := Cand 0 0 (rd lows 0) (rd highs 0).

(** The state in which the function returns (both return statements). *)
Definition run (length : nat) : state :=
  let p := prescan (length - 1) 1 init_cand (init_state length) in
  if trend_detected p =? 0 then out_state p
  else main_loop (length - (stop_index p + 1)) (stop_index p + 1) (out_state p).

End Detector.

(** [calculate_zigzag(highs, lows, epsilon)]: the pair
    [(high_low_markers, turning_points)], or the error of lines 27-30.
    The arguments are 1-D by their type, so the check of lines 21-24 has
    no counterpart. *)
Definition calculate_zigzag (highs lows : list float) (epsilon : float)
  : result (list Z * list Z) :=
  if negb (length highs =? length lows)%nat then Err LengthMismatch
  else
    let s := run highs lows epsilon (length highs) in
    Ok (markers_data s, turning_points_data s).

End ZigZag.

(* ================================================================== *)
(** ** Trade enumerator ([src/lib/enumerate_trades.c]) *)
(* ================================================================== *)

Module Trades.

(** [a[i]] on a buffer of longs. *)
Definition rd (a : list Z) (i : Z) : Z := nth (Z.to_nat i) a 0.

(** The variables of the scan: the position flag and the two lists. *)
Record scan_state : Type := ScanState {
  current_position : Z;
  entry_list : list Z;
  exit_list : list Z
}.

Section Enumerator.

Variables entry_data exit_data : list Z.

(** Lines 49-57: the body of the loop. *)
Definition scan_step (i : Z) (s : scan_state) : scan_state :=
  if (current_position s =? 1) && (rd exit_data i =? 1) then
    ScanState 0 (entry_list s) (exit_list s ++ [i])
  else if (current_position s =? 0) && (rd entry_data i =? 1) then
    ScanState 1 (entry_list s ++ [i]) (exit_list s)
  else s.

(** The loop of lines 48-58; [n] is the number of iterations left. *)
Fixpoint scan (n : nat) (i : Z) (s : scan_state) : scan_state :=
  match n with
  | O => s
  | S n' => scan n' (i + 1) (scan_step i s)
  end.

(** Lines 61-63: the exit appended for a position still open. *)
Definition close_open (length : Z) (s : scan_state) : list Z * list Z :=
  if (Z.of_nat (List.length (exit_list s)) <? Z.of_nat (List.length (entry_list s)))
  then (entry_list s, exit_list s ++ [length - 1])
  else (entry_list s, exit_list s).

End Enumerator.

Definition init_scan : scan_state := ScanState 0 [] [].

(** [enumerate_trades(entry_mask, exit_mask, skip_first)]. *)
Definition enumerate_trades (entry_mask exit_mask : list Z) (skip_first : Z)
  : result (list Z * list Z) :=
  let length := Z.of_nat (List.length entry_mask) in
  if negb (length =? Z.of_nat (List.length exit_mask)) then Err LengthMismatch
  else if (skip_first >=? length) || (skip_first <? 0) then Err SkipFirstOutOfRange
  else
    Ok (close_open length
          (scan entry_mask exit_mask (Z.to_nat (length - skip_first))
                skip_first init_scan)).

End Trades.

(* ================================================================== *)
(** ** The notions the properties are stated with *)
(* ================================================================== *)

Module ZigZagSpec.
Import ZigZag.

(** A value of an output buffer. *)
Definition tri (v : Z) : Prop := v = -1 \/ v = 0 \/ v = 1.

(** The output buffers keep the length [N] and hold only -1, 0 and 1. *)
Record buffers_ok (N : nat) (s : state) : Prop := BuffersOk {
  ok_markers_length : length (markers_data s) = N;
  ok_turning_length : length (turning_points_data s) = N;
  ok_markers_tri : Forall tri (markers_data s);
  ok_turning_tri : Forall tri (turning_points_data s)
}.

(** The nonzero entries of a buffer, in index order. *)
Fixpoint nonzero (l : list Z) : list Z :=
  match l with
  | [] => []
  | v :: l' => if v =? 0 then nonzero l' else v :: nonzero l'
  end.

(** No two neighbours of the list are equal. *)
Fixpoint alternates (l : list Z) : bool :=
  match l with
  | a :: (b :: _) as t => negb (a =? b) && alternates t
  | _ => true
  end.

(** The nonzero entries of [markers], in index order, alternate: no two
    troughs (-1) and no two peaks (1) in a row. *)
Definition markers_alternate (markers : list Z) : Prop :=
  alternates (nonzero markers) = true.

(** [l] alternates and, when it is not empty, ends with [v]. *)
Definition ends_with (v : Z) (l : list Z) : Prop :=
  alternates l = true /\ (l = [] \/ last l = Some v).

(** What holds of the markers before the main loop handles index [i]:
    the tracked extreme lies before [i]; nothing is marked after it; the
    marks before it alternate and end with the sign opposite to the
    running direction, and so do the marks up to and including it. *)
Record alt_inv (N i : nat) (s : state) : Prop := AltInv {
  ai_length : length (markers_data s) = N;
  ai_direction : direction s = 1 \/ direction s = -1;
  ai_index : (last_extreme_index s < i)%nat;
  ai_tail : Forall (eq 0) (drop (S (last_extreme_index s)) (markers_data s));
  ai_before :
    ends_with (- direction s)
              (nonzero (take (last_extreme_index s) (markers_data s)));
  ai_upto :
    ends_with (- direction s)
              (nonzero (take (S (last_extreme_index s)) (markers_data s)))
}.

Section Candidates.

Variables highs lows : list float.
Variable epsilon : float.

(** The candidates the pre-scan holds once it has updated them at index
    [i] (lines 61-70 applied at 1, ..., [i]). *)
Fixpoint candidates (i : nat) : cand :=
  match i with
  | O => init_cand highs lows
  | S j => track highs lows (S j) (candidates j)
  end.

(** Neither trigger fires at index [i]. *)
Definition quiet (i : nat) : Prop :=
  up_trigger highs epsilon i (candidates i) = false /\
  down_trigger lows epsilon i (candidates i) = false.

End Candidates.

(** [v], held at index [k], is the least of [a[0..i]] and [k] is the
    first index that holds it: no element of the range is below [v] and
    none before [k] equals it. *)
Definition is_running_min (a : list float) (i k : nat) (v : float) : Prop :=
  (k <= i)%nat /\ v = rd a k /\
  (forall j, (j <= i)%nat -> flt (rd a j) v = false) /\
  (forall j, (j < k)%nat -> (rd a j =? v)%float = false).

(** The same for the greatest element. *)
Definition is_running_max (a : list float) (i k : nat) (v : float) : Prop :=
  (k <= i)%nat /\ v = rd a k /\
  (forall j, (j <= i)%nat -> fgt (rd a j) v = false) /\
  (forall j, (j < k)%nat -> (rd a j =? v)%float = false).

(** The reset of C3 as the claim has it: on a reversal at [i] the
    tracked extreme takes the value stored at the old extreme index, read
    in [highs] when the trend flips from up to down and in [lows] when it
    flips from down to up. *)
Definition reset_reads_old_extreme
    (highs lows : list float) (epsilon : float) (i : nat) (s : state) : Prop :=
  (direction s = 1 ->
   ratio_test (last_extreme_value s) (rd lows i) epsilon = true ->
   last_extreme_value (main_step highs lows epsilon i s) =
   rd highs (last_extreme_index s)) /\
  (direction s = -1 ->
   ratio_test (rd highs i) (last_extreme_value s) epsilon = true ->
   last_extreme_value (main_step highs lows epsilon i s) =
   rd lows (last_extreme_index s)).

(** The rejection of C7 as the claim has it: a call whose [epsilon] is
    not positive is rejected. *)
Definition rejects_nonpositive_epsilon : Prop :=
  forall (highs lows : list float) (epsilon : float),
    (epsilon <=? 0)%float = true ->
    exists e, calculate_zigzag highs lows epsilon = Err e.

(** The guard of C7 as the claim has it: a ratio test whose denominator
    is zero is reported as an error. The upward test at index 1 is
    evaluated by every call on two elements or more; its denominator is
    the candidate low updated at index 1. *)
Definition guards_zero_denominator : Prop :=
  forall (highs lows : list float) (epsilon : float),
    length highs = length lows -> (2 <= length highs)%nat ->
    candidate_low (candidates highs lows 1) = 0%float ->
    exists e, calculate_zigzag highs lows epsilon = Err e.

(** What holds of the two buffers before the main loop handles index
    [i]: nothing is confirmed from [i] on; the confirmations before [i]
    alternate, there is at least one and the last equals the running
    direction; something is marked, and every marked index is at or
    before a confirmation. *)
Record tp_inv (N i : nat) (s : state) : Prop := TpInv {
  ti_turning_length : length (turning_points_data s) = N;
  ti_direction : direction s = 1 \/ direction s = -1;
  ti_index : (last_extreme_index s < i)%nat;
  ti_tail : Forall (eq 0) (drop i (turning_points_data s));
  ti_alt : ends_with (direction s) (nonzero (take i (turning_points_data s)));
  ti_some : nonzero (take i (turning_points_data s)) <> [];
  ti_marker : exists (k : nat) (m : Z), markers_data s !! k = Some m /\ m <> 0;
  ti_marked :
    forall (k : nat) (m : Z),
      markers_data s !! k = Some m -> m <> 0 ->
      exists (j : nat) (v : Z),
        (k <= j < i)%nat /\ turning_points_data s !! j = Some v /\ v <> 0
}.

(** There are no more marks than confirmations before index [i]. *)
Definition count_inv (i : nat) (s : state) : Prop :=
  (length (nonzero (markers_data s)) <=
   length (nonzero (take i (turning_points_data s))))%nat.

End ZigZagSpec.

Module TradesSpec.
Import Trades.

(** What holds of the scan before it handles index [i], having started at
    [lo]: both lists increase strictly and stay below [i]; closed pairs
    have the entry strictly before the exit; while a position is open the
    last entry is unmatched and lies after every exit. *)
Record scan_inv (lo i : Z) (s : scan_state) : Prop := ScanInv {
  inv_entries_sorted : StronglySorted Z.lt (entry_list s);
  inv_exits_sorted : StronglySorted Z.lt (exit_list s);
  inv_entries_range : Forall (fun e => lo <= e < i) (entry_list s);
  inv_exits_range : Forall (fun x => lo < x < i) (exit_list s);
  inv_pairs :
    (current_position s = 0 /\ Forall2 Z.lt (entry_list s) (exit_list s)) \/
    (current_position s = 1 /\
     exists es e, entry_list s = es ++ [e] /\
                  Forall2 Z.lt es (exit_list s) /\
                  Forall (fun x => x < e) (exit_list s))
}.

(** The scan of a whole valid call. *)
Definition final_scan (entry exit : list Z) (skip_first : Z) : scan_state :=
  scan entry exit
       (Z.to_nat (Z.of_nat (length entry) - skip_first)) skip_first init_scan.

(** [exits[k] > entries[k]] for every matched pair [k]. *)
Definition pairs_strict (entries exits : list Z) : Prop :=
  forall (k : nat) (e x : Z),
    entries !! k = Some e -> exits !! k = Some x -> e < x.

(** A mask value as the scan reads it: it fires exactly when it is 1. *)
Definition fires (v : Z) : Z := if v =? 1 then 1 else 0.

(** What the recorded indices say about the masks, before the scan
    handles index [i]: every recorded index carries its signal; the first
    entry is the first entry signal from [lo]; each exit is the first exit
    signal after its entry; each later entry follows the previous exit
    and is the first entry signal after it; and since the last recorded
    index no signal of the awaited kind has been seen. *)
Record signal_inv (entry_data exit_data : list Z) (lo i : Z)
       (s : scan_state) : Prop := SignalInv {
  si_entries_fire :
    forall (k : nat) (e : Z), entry_list s !! k = Some e -> rd entry_data e = 1;
  si_exits_fire :
    forall (k : nat) (x : Z), exit_list s !! k = Some x -> rd exit_data x = 1;
  si_first :
    forall (e j : Z),
      entry_list s !! 0%nat = Some e -> lo <= j < e -> rd entry_data j <> 1;
  si_exit_first :
    forall (k : nat) (e x j : Z),
      entry_list s !! k = Some e -> exit_list s !! k = Some x ->
      e < j < x -> rd exit_data j <> 1;
  si_entry_next :
    forall (k : nat) (x e : Z),
      exit_list s !! k = Some x -> entry_list s !! S k = Some e ->
      x < e /\ forall j, x < j < e -> rd entry_data j <> 1;
  si_flat :
    current_position s = 0 ->
    forall j, lo <= j < i ->
              (forall x, last (exit_list s) = Some x -> x < j) ->
              rd entry_data j <> 1;
  si_open :
    current_position s = 1 ->
    forall e j, last (entry_list s) = Some e -> e < j < i ->
                rd exit_data j <> 1
}.

(** Every entry signal seen so far lies inside a recorded trade, or at or
    after the entry of the position still open. *)
Definition cover_inv (entry_data : list Z) (lo i : Z) (s : scan_state) : Prop :=
  forall j, lo <= j < i -> rd entry_data j = 1 ->
    (exists (k : nat) (e x : Z),
        entry_list s !! k = Some e /\ exit_list s !! k = Some x /\ e <= j <= x) \/
    (current_position s = 1 /\
     exists e, last (entry_list s) = Some e /\ e <= j).

(** The scan state with every recorded index moved by [k]. *)
Definition shift_scan (k : Z) (s : scan_state) : scan_state :=
  ScanState (current_position s)
            (map (Z.add k) (entry_list s)) (map (Z.add k) (exit_list s)).

(** The result of a call with every returned index moved by [k]. *)
Definition shift_result (k : Z) (r : result (list Z * list Z))
  : result (list Z * list Z) :=
  match r with
  | Ok (entries, exits) => Ok (map (Z.add k) entries, map (Z.add k) exits)
  | Err e => Err e
  end.

End TradesSpec.

(* ================================================================== *)
(** ** The order and the division of binary64 floats *)
(* ================================================================== *)

(** The facts about doubles the proofs use, derived from the
    specification of the primitive operators ([FloatAxioms]). *)
Module FloatFacts.

Lemma SFltb_trans (x y z : spec_float) :
  SFltb x y = true -> SFltb y z = true -> SFltb x z = true.
Proof.
  unfold SFltb, SFcompare.
  destruct x as [sx|sx| |sx mx ex], y as [sy|sy| |sy my ey],
           z as [sz|sz| |sz mz ez];
    try destruct sx; try destruct sy; try destruct sz;
    try discriminate; try reflexivity;
    change (Pos.compare_cont Eq) with Pos.compare;
    destruct (Z.compare_spec ex ey), (Z.compare_spec ey ez),
             (Z.compare_spec ex ez);
    try discriminate; try reflexivity; try lia; subst;
    destruct (Pos.compare_spec mx my), (Pos.compare_spec my mz),
             (Pos.compare_spec mx mz);
    simpl; try discriminate; try reflexivity; try lia.
Qed.

Lemma SFeqb_ltb_l (x y z : spec_float) :
  SFeqb x y = true -> SFltb x z = SFltb y z.
Proof.
  unfold SFeqb, SFltb, SFcompare.
  destruct x as [sx|sx| |sx mx ex], y as [sy|sy| |sy my ey],
           z as [sz|sz| |sz mz ez];
    try destruct sx; try destruct sy; try destruct sz;
    try discriminate; try reflexivity;
    change (Pos.compare_cont Eq) with Pos.compare;
    destruct (Z.compare_spec ex ey); try discriminate; subst;
    destruct (Pos.compare_spec mx my); try discriminate; subst;
    reflexivity.
Qed.

Lemma ltb_trans (x y z : float) :
  (x <? y)%float = true -> (y <? z)%float = true -> (x <? z)%float = true.
Proof. rewrite !ltb_spec. apply SFltb_trans. Qed.

Lemma eqb_ltb_l (x y z : float) :
  (x =? y)%float = true -> (x <? z)%float = (y <? z)%float.
Proof. rewrite FloatAxioms.eqb_spec, !ltb_spec. apply SFeqb_ltb_l. Qed.

Lemma SFeqb_ltb_r (x y z : spec_float) :
  SFeqb x y = true -> SFltb z x = SFltb z y.
Proof.
  unfold SFeqb, SFltb, SFcompare.
  destruct x as [sx|sx| |sx mx ex], y as [sy|sy| |sy my ey],
           z as [sz|sz| |sz mz ez];
    try destruct sx; try destruct sy; try destruct sz;
    try discriminate; try reflexivity;
    change (Pos.compare_cont Eq) with Pos.compare;
    destruct (Z.compare_spec ex ey); try discriminate; subst;
    destruct (Pos.compare_spec mx my); try discriminate; subst;
    reflexivity.
Qed.

Lemma eqb_ltb_r (x y z : float) :
  (x =? y)%float = true -> (z <? x)%float = (z <? y)%float.
Proof. rewrite FloatAxioms.eqb_spec, !ltb_spec. apply SFeqb_ltb_r. Qed.

Lemma ltb_irrefl (x : float) : (x <? x)%float = false.
Proof.
  rewrite ltb_spec. unfold SFltb, SFcompare.
  destruct (Prim2SF x) as [s|s| |s m e]; try destruct s; try reflexivity;
    rewrite Z.compare_refl; change (Pos.compare_cont Eq) with Pos.compare;
    rewrite Pos.compare_refl; reflexivity.
Qed.

(** [c / c] in the specification: exactly one for a finite nonzero [c],
    NaN for a zero, an infinity or a NaN. *)
Lemma SF64div_diag (x : spec_float) :
  SF64div x x = match x with
                | S754_finite _ _ _ => Prim2SF 1
                | _ => S754_nan
                end.
Proof.
  destruct x as [s|s| |s m e]; try reflexivity.
  unfold SF64div, SFdiv, SFdiv_core_binary.
  rewrite !Z.sub_diag, xorb_nilpotent.
  change (Z.min (fexp prec emax 0) 0) with (-53).
  change (0 - -53) with 53.
  cbv iota beta.
  rewrite Z.shiftl_mul_pow2 by lia.
  assert (H : Z.div_eucl (Z.pos m * 2 ^ 53) (Z.pos m) = (2 ^ 53, 0)).
  { assert (E : forall a b, Z.div_eucl a b = (a / b, a mod b)).
    { intros a b. unfold Z.div, Z.modulo. destruct (Z.div_eucl a b); reflexivity. }
    rewrite E, (Z.mul_comm (Z.pos m)), Z.div_mul, Z.mod_mul by lia.
    reflexivity. }
  rewrite H.
  unfold new_location.
  destruct (Z.even (Z.pos m)); reflexivity.
Qed.

Lemma div_diag (c : float) :
  (c / c)%float = match Prim2SF c with
                  | S754_finite _ _ _ => 1%float
                  | _ => nan
                  end.
Proof.
  apply Prim2SF_inj. rewrite div_spec, SF64div_diag.
  destruct (Prim2SF c); reflexivity.
Qed.

(** No float at or above a positive one is a zero or a NaN. *)
Lemma leb_zero_pos (e : float) :
  (0 <? e)%float = true -> (e <=? 0)%float = false.
Proof.
  rewrite ltb_spec, leb_spec.
  change (Prim2SF 0) with (S754_zero false).
  unfold SFltb, SFleb, SFcompare.
  destruct (Prim2SF e) as [s|s| |s m x]; try destruct s;
    intros; try discriminate; reflexivity.
Qed.

Lemma leb_nan_r (e : float) : (e <=? nan)%float = false.
Proof.
  rewrite leb_spec. change (Prim2SF nan) with S754_nan.
  unfold SFleb, SFcompare. destruct (Prim2SF e); reflexivity.
Qed.

(** A positive value over a zero: the quotient is the positive infinity. *)
Lemma div_pos_zero (x : float) :
  (0 <? x)%float = true -> (x / 0)%float = infinity.
Proof.
  rewrite ltb_spec. intros Hx. apply Prim2SF_inj. rewrite div_spec.
  change (Prim2SF 0) with (S754_zero false) in *.
  change (Prim2SF infinity) with (S754_infinity false).
  unfold SFltb, SFcompare in Hx.
  destruct (Prim2SF x) as [s|s| |s m e]; try destruct s; try discriminate;
    reflexivity.
Qed.

(** Every float but a NaN is at most the positive infinity. *)
Lemma leb_infinity (e : float) :
  (e =? e)%float = true -> (e <=? infinity)%float = true.
Proof.
  rewrite FloatAxioms.eqb_spec, leb_spec.
  change (Prim2SF infinity) with (S754_infinity false).
  unfold SFeqb, SFleb, SFcompare.
  destruct (Prim2SF e) as [s|s| |s m x]; try destruct s;
    intros; try discriminate; reflexivity.
Qed.

(** The two zeros are the only floats equal to zero. *)
Lemma eqb_zero_cases (y : float) :
  (y =? 0)%float = true -> y = 0%float \/ y = neg_zero.
Proof.
  rewrite FloatAxioms.eqb_spec. change (Prim2SF 0) with (S754_zero false).
  unfold SFeqb, SFcompare. intros H. rewrite <- (SF2Prim_Prim2SF y).
  destruct (Prim2SF y) as [s|s| |s m e]; try destruct s; try discriminate;
    first [left; reflexivity | right; reflexivity].
Qed.

(** A nonzero value over a zero: the quotient is the infinity whose sign
    is the product of the signs. *)
Lemma div_pos_neg_zero (x : float) :
  (0 <? x)%float = true -> (x / neg_zero)%float = neg_infinity.
Proof.
  rewrite ltb_spec. intros Hx. apply Prim2SF_inj. rewrite div_spec.
  change (Prim2SF 0) with (S754_zero false) in *.
  change (Prim2SF neg_zero) with (S754_zero true).
  change (Prim2SF neg_infinity) with (S754_infinity true).
  unfold SFltb, SFcompare in Hx.
  destruct (Prim2SF x) as [s|s| |s m e]; try destruct s; try discriminate;
    reflexivity.
Qed.

Lemma div_neg_zero (x : float) :
  (x <? 0)%float = true -> (x / 0)%float = neg_infinity.
Proof.
  rewrite ltb_spec. intros Hx. apply Prim2SF_inj. rewrite div_spec.
  change (Prim2SF 0) with (S754_zero false) in *.
  change (Prim2SF neg_infinity) with (S754_infinity true).
  unfold SFltb, SFcompare in Hx.
  destruct (Prim2SF x) as [s|s| |s m e]; try destruct s; try discriminate;
    reflexivity.
Qed.

Lemma div_neg_neg_zero (x : float) :
  (x <? 0)%float = true -> (x / neg_zero)%float = infinity.
Proof.
  rewrite ltb_spec. intros Hx. apply Prim2SF_inj. rewrite div_spec.
  change (Prim2SF 0) with (S754_zero false) in *.
  change (Prim2SF neg_zero) with (S754_zero true).
  change (Prim2SF infinity) with (S754_infinity false).
  unfold SFltb, SFcompare in Hx.
  destruct (Prim2SF x) as [s|s| |s m e]; try destruct s; try discriminate;
    reflexivity.
Qed.

(** A zero over a zero, and a NaN over anything, is a NaN. *)
Lemma div_zero_zero (x y : float) :
  (x =? 0)%float = true -> (y =? 0)%float = true -> (x / y)%float = nan.
Proof.
  intros Hx Hy.
  destruct (eqb_zero_cases x Hx) as [-> | ->],
           (eqb_zero_cases y Hy) as [-> | ->]; reflexivity.
Qed.

Lemma div_nan_l (x y : float) :
  (x =? x)%float = false -> (x / y)%float = nan.
Proof.
  rewrite FloatAxioms.eqb_spec. intros Hx. apply Prim2SF_inj.
  rewrite div_spec. change (Prim2SF nan) with S754_nan.
  unfold SFeqb, SFcompare in Hx.
  destruct (Prim2SF x) as [s|s| |s m e]; try destruct s;
    try discriminate; try reflexivity;
    rewrite Z.compare_refl in Hx;
    change (Pos.compare_cont Eq) with Pos.compare in Hx;
    rewrite Pos.compare_refl in Hx; discriminate.
Qed.

(** Only the negative infinity is at most the negative infinity. *)
Lemma leb_neg_infinity (e : float) :
  (neg_infinity <? e)%float = true -> (e <=? neg_infinity)%float = false.
Proof.
  rewrite ltb_spec, leb_spec.
  change (Prim2SF neg_infinity) with (S754_infinity true).
  unfold SFltb, SFleb, SFcompare.
  destruct (Prim2SF e) as [s|s| |s m x]; try destruct s;
    intros; try discriminate; reflexivity.
Qed.

End FloatFacts.

(* ================================================================== *)
(** ** Properties of the trade enumerator *)
(* ================================================================== *)

Module TradesFacts.
Import Trades TradesSpec.

Lemma sorted_snoc (l : list Z) (x : Z) :
  StronglySorted Z.lt l -> Forall (fun a => a < x) l ->
  StronglySorted Z.lt (l ++ [x]).
Proof.
  intros Hs Hl. apply StronglySorted_app_2; [|assumption|repeat constructor].
  intros a b Ha Hb. apply list_elem_of_singleton in Hb as ->.
  rewrite Forall_forall in Hl. auto.
Qed.

Lemma scan_inv_init (lo : Z) : scan_inv lo lo init_scan.
Proof.
  split; simpl; try constructor.
  split; [reflexivity|constructor].
Qed.

Section Scan.

Variables entry_data exit_data : list Z.

Lemma scan_step_inv (lo i : Z) (s : scan_state) :
  lo <= i -> scan_inv lo i s ->
  scan_inv lo (i + 1) (scan_step entry_data exit_data i s).
Proof.
  intros Hlo [Hes Hxs Her Hxr Hp]. unfold scan_step.
  assert (Her' : Forall (fun e => lo <= e < i + 1) (entry_list s)).
  { eapply Forall_impl; [exact Her|]. simpl. intros; lia. }
  assert (Hxr' : Forall (fun x => lo < x < i + 1) (exit_list s)).
  { eapply Forall_impl; [exact Hxr|]. simpl. intros; lia. }
  destruct Hp as [[Hc Hp] | [Hc (es & e & He & Hp & Hlt)]]; rewrite Hc; simpl.
  - destruct (rd entry_data i =? 1); [|split; auto].
    split; simpl; auto.
    + apply sorted_snoc; [assumption|].
      eapply Forall_impl; [exact Her|]. simpl. intros; lia.
    + apply Forall_app; split; [assumption|]. repeat constructor; lia.
    + right. split; [reflexivity|]. exists (entry_list s), i.
      repeat split; auto.
      eapply Forall_impl; [exact Hxr|]. simpl. intros; lia.
  - destruct (rd exit_data i =? 1); [|split; eauto 10].
    assert (Hei : lo <= e < i).
    { rewrite He, Forall_app, Forall_singleton in Her. tauto. }
    split; simpl; auto.
    + apply sorted_snoc; [assumption|].
      eapply Forall_impl; [exact Hxr|]. simpl. intros; lia.
    + apply Forall_app; split; [assumption|]. repeat constructor; lia.
    + left. split; [reflexivity|]. rewrite He.
      apply Forall2_app; [assumption|]. repeat constructor. lia.
Qed.

Lemma scan_inv_loop (n : nat) (lo i : Z) (s : scan_state) :
  lo <= i -> scan_inv lo i s ->
  scan_inv lo (i + Z.of_nat n) (scan entry_data exit_data n i s).
Proof.
  revert i s. induction n as [|n IH]; intros i s Hlo Hinv.
  - simpl. replace (i + Z.of_nat 0) with i by lia. assumption.
  - cbn [scan]. replace (i + Z.of_nat (S n)) with ((i + 1) + Z.of_nat n) by lia.
    apply IH; [lia|]. apply scan_step_inv; assumption.
Qed.

(** A mask value other than 1 leaves the scan where it is. *)
Lemma scan_step_not_one (i : Z) (s : scan_state) :
  (current_position s = 1 -> rd exit_data i <> 1) ->
  (current_position s = 0 -> rd entry_data i <> 1) ->
  scan_step entry_data exit_data i s = s.
Proof.
  intros Hx He. unfold scan_step.
  destruct (Z.eqb_spec (current_position s) 1) as [H1|H1]; simpl.
  - destruct (Z.eqb_spec (rd exit_data i) 1) as [H2|H2]; [tauto|].
    rewrite H1. reflexivity.
  - destruct (Z.eqb_spec (current_position s) 0) as [H0|H0]; simpl; [|reflexivity].
    destruct (Z.eqb_spec (rd entry_data i) 1); [tauto|reflexivity].
Qed.

End Scan.

Lemma final_scan_inv (entry exit : list Z) (skip_first : Z) :
  0 <= skip_first < Z.of_nat (length entry) ->
  scan_inv skip_first (Z.of_nat (length entry)) (final_scan entry exit skip_first).
Proof.
  intros H. unfold final_scan.
  set (n := Z.to_nat (Z.of_nat (length entry) - skip_first)).
  replace (Z.of_nat (length entry)) with (skip_first + Z.of_nat n) at 1 by lia.
  apply scan_inv_loop; [lia|apply scan_inv_init].
Qed.

Lemma enumerate_trades_valid (entry exit : list Z) (skip_first : Z) :
  length entry = length exit ->
  0 <= skip_first < Z.of_nat (length entry) ->
  enumerate_trades entry exit skip_first =
  Ok (close_open (Z.of_nat (length entry)) (final_scan entry exit skip_first)).
Proof.
  intros Hlen Hs. unfold enumerate_trades.
  rewrite <- Hlen, Z.eqb_refl. simpl.
  destruct (Z.geb_spec skip_first (Z.of_nat (length entry))); [lia|].
  destruct (Z.ltb_spec skip_first 0); [lia|]. reflexivity.
Qed.

(** An [Ok] result comes from a valid call. *)
Lemma enumerate_trades_ok (entry exit : list Z) (skip_first : Z) r :
  enumerate_trades entry exit skip_first = Ok r ->
  length entry = length exit /\ 0 <= skip_first < Z.of_nat (length entry).
Proof.
  unfold enumerate_trades.
  destruct (Z.eqb_spec (Z.of_nat (length entry)) (Z.of_nat (length exit))); simpl;
    [|discriminate].
  destruct (Z.geb_spec skip_first (Z.of_nat (length entry))); simpl; [discriminate|].
  destruct (Z.ltb_spec skip_first 0); simpl; [discriminate|].
  intros _. lia.
Qed.

End TradesFacts.

Module TradesClaims.
Import Trades TradesSpec TradesFacts.

(** C8. For masks of one length [N] and [0 <= skip_first < N] the call
    returns two lists of the same length. The scan itself never records
    more exits than entries: it is in position exactly when it holds one
    entry more than exits, and is flat exactly when the two lists are
    level. When it ends in position the result's exits are the recorded
    ones followed by [N - 1]; otherwise they are the recorded ones. *)
Theorem enumerate_trades_balanced (entry exit : list Z) (skip_first : Z) :
  length entry = length exit ->
  0 <= skip_first < Z.of_nat (length entry) ->
  let s := final_scan entry exit skip_first in
  let N := Z.of_nat (length entry) in
  (length (exit_list s) <= length (entry_list s))%nat /\
  (current_position s = 1 <-> length (entry_list s) = S (length (exit_list s))) /\
  (current_position s = 0 <-> length (entry_list s) = length (exit_list s)) /\
  exists entries exits,
    enumerate_trades entry exit skip_first = Ok (entries, exits) /\
    length entries = length exits /\
    entries = entry_list s /\
    exits = (if (length (exit_list s) <? length (entry_list s))%nat
             then exit_list s ++ [N - 1] else exit_list s).
Proof.
  intros Hlen Hs s N.
  pose proof (final_scan_inv entry exit skip_first Hs) as [_ _ _ _ Hp].
  fold s in Hp.
  rewrite (enumerate_trades_valid entry exit skip_first Hlen Hs).
  fold s N. unfold close_open.
  destruct Hp as [[Hc Hp] | [Hc (es & e & He & Hp & _)]];
    apply Forall2_length in Hp.
  - rewrite Hc, Hp. repeat split; try lia.
    exists (entry_list s), (exit_list s).
    destruct (Z.ltb_spec (Z.of_nat (length (exit_list s)))
                         (Z.of_nat (length (exit_list s)))); [lia|].
    rewrite Hp. rewrite Nat.ltb_irrefl. auto.
  - assert (Hl : length (entry_list s) = S (length (exit_list s))).
    { rewrite He, length_app. simpl. lia. }
    rewrite Hc, Hl. repeat split; try lia.
    exists (entry_list s), (exit_list s ++ [N - 1]).
    destruct (Z.ltb_spec (Z.of_nat (length (exit_list s)))
                         (Z.of_nat (S (length (exit_list s))))); [|lia].
    destruct (Nat.ltb_spec (length (exit_list s)) (S (length (exit_list s)))); [|lia].
    rewrite length_app. simpl. repeat split; auto; lia.
Qed.

(** Scenario 1 of the specification, through [enumerate_trades_balanced]. *)
Lemma enumerate_trades_balanced_witness :
  exists entries exits,
    enumerate_trades [0;1;0;0;1;0] [0;0;1;0;0;0] 0 = Ok (entries, exits) /\
    entries = [1;4] /\ exits = [2;5] /\ length entries = length exits.
Proof.
  destruct (enumerate_trades_balanced [0;1;0;0;1;0] [0;0;1;0;0;0] 0
              ltac:(reflexivity) ltac:(simpl; lia))
    as (_ & _ & _ & entries & exits & H & Hl & He & Hx).
  exists entries, exits. subst entries exits. repeat split; assumption.
Defined.

(** C9, as stated, fails: an entry that fires at the last index is paired
    with the synthesized exit at that same index. *)
Lemma pairs_strict_counterexample :
  enumerate_trades [0;1] [0;0] 0 = Ok ([1], [1]) /\
  (length [0;1] = length [0;0] /\ 0 <= 0 < Z.of_nat (length [0;1])) /\
  ~ pairs_strict [1] [1].
Proof.
  split; [reflexivity|]. split; [simpl; lia|].
  intros H. specialize (H 0%nat 1 1 eq_refl eq_refl). lia.
Qed.

(** C9, amended. Both returned lists increase strictly. The returned
    entries are the entries the scan recorded; the returned exits are
    the exits the scan recorded, followed by [N - 1] exactly when the
    scan ends in position. Every pair whose exit the scan recorded has
    its exit strictly after its entry. The pair closed by the
    synthesized exit is the last one: its exit is [N - 1], never before
    its entry, and equal to it exactly when the entry fired at
    [N - 1]. *)
Theorem enumerate_trades_ordered (entry exit : list Z) (skip_first : Z)
        (entries exits : list Z) :
  enumerate_trades entry exit skip_first = Ok (entries, exits) ->
  let s := final_scan entry exit skip_first in
  let N := Z.of_nat (length entry) in
  StronglySorted Z.lt entries /\
  StronglySorted Z.lt exits /\
  pairs_strict (entry_list s) (exit_list s) /\
  entries = entry_list s /\
  exits = (if current_position s =? 1
           then exit_list s ++ [N - 1] else exit_list s) /\
  (current_position s = 1 ->
   exists e, last entries = Some e /\ last exits = Some (N - 1) /\
             length entries = length exits /\ e <= N - 1) /\
  forall (k : nat) (e x : Z),
    entries !! k = Some e -> exits !! k = Some x ->
    (exit_list s !! k = Some x /\ e < x) \/
    (current_position s = 1 /\ S k = length entries /\
     exit_list s !! k = None /\ x = N - 1 /\ e <= x /\
     (e = x <-> e = N - 1)).
Proof.
  intros Hok s N.
  destruct (enumerate_trades_ok _ _ _ _ Hok) as [Hlen Hs].
  rewrite (enumerate_trades_valid entry exit skip_first Hlen Hs) in Hok.
  pose proof (final_scan_inv entry exit skip_first Hs) as [Hes Hxs Her Hxr Hp].
  fold s N in Hok, Hes, Hxs, Her, Hxr, Hp. unfold close_open in Hok.
  destruct Hp as [[Hc Hp] | [Hc (es & e0 & He & Hp & Hlt)]].
  - pose proof (Forall2_length _ _ _ Hp) as Hl. rewrite Hl in Hok.
    destruct (Z.ltb_spec (Z.of_nat (length (exit_list s)))
                         (Z.of_nat (length (exit_list s)))); [lia|].
    injection Hok as <- <-.
    assert (Hps : pairs_strict (entry_list s) (exit_list s)).
    { intros k e x Hk1 Hk2. eapply Forall2_lookup_lr; eauto. }
    rewrite Hc. simpl. repeat split; auto.
    + intros Habs. discriminate Habs.
    + intros k e x Hk1 Hk2. left. split; [exact Hk2|eauto].
  - pose proof (Forall2_length _ _ _ Hp) as Hl.
    assert (Hl' : length (entry_list s) = S (length (exit_list s))).
    { rewrite He, length_app. simpl. lia. }
    rewrite Hl' in Hok.
    destruct (Z.ltb_spec (Z.of_nat (length (exit_list s)))
                         (Z.of_nat (S (length (exit_list s))))); [|lia].
    injection Hok as <- <-.
    assert (He0 : skip_first <= e0 < N).
    { rewrite He, Forall_app, Forall_singleton in Her. tauto. }
    assert (Hps : pairs_strict (entry_list s) (exit_list s)).
    { intros k e x Hk1 Hk2.
      assert (k < length es)%nat
        by (rewrite Hl; eapply lookup_lt_Some; eauto).
      rewrite He, lookup_app_l in Hk1 by assumption.
      eapply Forall2_lookup_lr; eauto. }
    rewrite Hc. simpl.
    split; [assumption|]. split.
    { apply sorted_snoc; [assumption|].
      eapply Forall_impl; [exact Hlt|]. simpl. intros; lia. }
    split; [assumption|]. split; [reflexivity|]. split; [reflexivity|]. split.
    { intros _. exists e0. rewrite He at 1. rewrite !last_snoc.
      rewrite Hl', length_app. simpl. repeat split; lia. }
    intros k e x Hk1 Hk2.
    destruct (decide (k < length (exit_list s))%nat) as [Hk|Hk].
    + left. rewrite lookup_app_l in Hk2 by assumption. eauto.
    + assert (k = length (exit_list s)).
      { apply lookup_lt_Some in Hk1. lia. }
      subst k. rewrite list_lookup_middle in Hk2 by reflexivity.
      rewrite He, list_lookup_middle in Hk1 by lia.
      injection Hk1 as <-. injection Hk2 as <-.
      right. repeat split; try lia.
      apply lookup_ge_None. lia.
Qed.

(** [enumerate_trades_ordered] on the call of the counterexample: the
    only pair is the synthesized one, at [N - 1 = 1]. *)
Lemma enumerate_trades_ordered_witness :
  StronglySorted Z.lt [1] /\ StronglySorted Z.lt [1] /\
  [1] = exit_list (final_scan [0;1] [0;0] 0) ++ [2 - 1] /\
  forall (k : nat) (e x : Z),
    [1] !! k = Some e -> [1] !! k = Some x -> e < x \/ (x = 1 /\ e <= x).
Proof.
  destruct (enumerate_trades_ordered [0;1] [0;0] 0 [1] [1] eq_refl)
    as (H1 & H2 & _ & _ & H3 & _ & H4).
  split; [exact H1|]. split; [exact H2|]. split; [exact H3|].
  intros k e x He Hx.
  destruct (H4 k e x He Hx) as [[_ H]|(_ & _ & _ & H & H' & _)];
    [left; exact H|right; split; assumption].
Defined.

Lemma rd_fires (a : list Z) (i : Z) : rd (map fires a) i = fires (rd a i).
Proof. unfold rd. apply (map_nth fires a 0). Qed.

Lemma fires_idem (v : Z) : (fires v =? 1) = (v =? 1).
Proof. unfold fires. destruct (Z.eqb_spec v 1); reflexivity. Qed.

Lemma scan_fires (entry exit : list Z) (n : nat) (i : Z) (s : scan_state) :
  scan (map fires entry) (map fires exit) n i s = scan entry exit n i s.
Proof.
  revert i s. induction n as [|n IH]; intros i s; [reflexivity|].
  cbn [scan]. rewrite IH. f_equal.
  unfold scan_step. rewrite !rd_fires, !fires_idem. reflexivity.
Qed.

(** C10. The call reads a mask only through the test [== 1]: replacing
    every value other than 1 (2, -1, ...) by 0 in both masks changes
    neither the result nor the error. *)
Theorem enumerate_trades_only_one (entry exit : list Z) (skip_first : Z) :
  enumerate_trades entry exit skip_first =
  enumerate_trades (map fires entry) (map fires exit) skip_first.
Proof.
  unfold enumerate_trades. rewrite !length_map, scan_fires. reflexivity.
Qed.

End TradesClaims.

(* ================================================================== *)
(** ** Properties of the zigzag detector *)
(* ================================================================== *)

Module ZigZagFacts.
Import ZigZag ZigZagSpec FloatFacts.

Lemma Forall_tri_insert (l : list Z) (k : nat) (v : Z) :
  tri v -> Forall tri l -> Forall tri (<[k := v]> l).
Proof.
  intros Hv Hl. destruct (decide (k < length l)%nat).
  - apply Forall_insert; assumption.
  - rewrite list_insert_ge by lia. assumption.
Qed.

Lemma buffers_ok_init (N : nat) : buffers_ok N (init_state N).
Proof.
  split; simpl; rewrite ?length_replicate; auto;
    apply Forall_replicate; right; left; reflexivity.
Qed.

Lemma buffers_ok_set_marker N k v s :
  tri v -> buffers_ok N s -> buffers_ok N (set_marker k v s).
Proof.
  intros Hv [H1 H2 H3 H4]. split; simpl; rewrite ?length_insert; auto.
  apply Forall_tri_insert; assumption.
Qed.

Lemma buffers_ok_set_turning_point N k v s :
  tri v -> buffers_ok N s -> buffers_ok N (set_turning_point k v s).
Proof.
  intros Hv [H1 H2 H3 H4]. split; simpl; rewrite ?length_insert; auto.
  apply Forall_tri_insert; assumption.
Qed.

Lemma buffers_ok_set_direction N d s :
  buffers_ok N s -> buffers_ok N (set_direction d s).
Proof. intros [H1 H2 H3 H4]. split; assumption. Qed.

Lemma buffers_ok_set_last_extreme_index N k s :
  buffers_ok N s -> buffers_ok N (set_last_extreme_index k s).
Proof. intros [H1 H2 H3 H4]. split; assumption. Qed.

Lemma buffers_ok_set_last_extreme_value N v s :
  buffers_ok N s -> buffers_ok N (set_last_extreme_value v s).
Proof. intros [H1 H2 H3 H4]. split; assumption. Qed.

Lemma tri_one : tri 1.
Proof. right; right; reflexivity. Qed.
Lemma tri_minus_one : tri (-1).
Proof. left; reflexivity. Qed.

Lemma nonzero_app (l1 l2 : list Z) :
  nonzero (l1 ++ l2) = nonzero l1 ++ nonzero l2.
Proof.
  induction l1 as [|v l1 IH]; [reflexivity|]. simpl.
  destruct (v =? 0); [exact IH|]. simpl. f_equal. exact IH.
Qed.

Lemma nonzero_zeros (l : list Z) : Forall (eq 0) l -> nonzero l = [].
Proof.
  induction 1 as [|v l <- _ IH]; [reflexivity|]. simpl. exact IH.
Qed.

Lemma nonzero_replicate (n : nat) : nonzero (replicate n 0) = [].
Proof. apply nonzero_zeros, Forall_replicate_eq. Qed.

Lemma alternates_snoc (l : list Z) (v w : Z) :
  alternates l = true -> (l = [] \/ last l = Some w) -> v <> w ->
  alternates (l ++ [v]) = true.
Proof.
  induction l as [|a l IH]; intros Ha Hl Hv; [reflexivity|].
  destruct l as [|b l].
  - simpl. destruct Hl as [Hl|Hl]; [discriminate|].
    simpl in Hl. injection Hl as ->.
    destruct (Z.eqb_spec w v); [congruence|reflexivity].
  - change (alternates (a :: (b :: l) ++ [v]) = true).
    cbn [alternates] in Ha. apply andb_true_iff in Ha as [Hab Ha].
    change ((b :: l) ++ [v]) with (b :: (l ++ [v])).
    cbn [alternates]. rewrite Hab. simpl.
    change (b :: l ++ [v]) with ((b :: l) ++ [v]).
    apply IH; [exact Ha| |exact Hv].
    destruct Hl as [Hl|Hl]; [discriminate|]. right. exact Hl.
Qed.

Lemma ends_with_snoc (l : list Z) (v w : Z) :
  ends_with w l -> v <> w -> ends_with v (l ++ [v]).
Proof.
  intros [Ha Hl] Hv. split.
  - eapply alternates_snoc; eauto.
  - right. apply last_snoc.
Qed.

(** The nonzero entries of a prefix that reaches past the last nonzero
    entry. *)
Lemma nonzero_take_past (m : list Z) (k n : nat) :
  (k <= n)%nat -> Forall (eq 0) (drop k m) ->
  nonzero (take n m) = nonzero (take k m).
Proof.
  intros Hk Hz. replace n with (k + (n - k))%nat by lia.
  rewrite <- take_take_drop, nonzero_app.
  rewrite (nonzero_zeros (take _ (drop _ _))) by (apply Forall_take, Hz).
  apply app_nil_r.
Qed.

Lemma nonzero_past (m : list Z) (k : nat) :
  Forall (eq 0) (drop k m) -> nonzero m = nonzero (take k m).
Proof.
  intros Hz. rewrite <- (take_drop k m) at 1.
  rewrite nonzero_app, (nonzero_zeros (drop _ _)) by exact Hz.
  apply app_nil_r.
Qed.

(** The nonzero entries of a prefix of a zeroed buffer with one mark. *)
Lemma nonzero_take_single (N k n : nat) (v : Z) :
  v <> 0 -> (k < N)%nat ->
  nonzero (take n (<[k := v]> (replicate N 0))) =
  if decide (k < n)%nat then [v] else [].
Proof.
  intros Hv Hk. destruct (decide (k < n)%nat) as [Hlt|Hge].
  - rewrite take_insert_lt, take_replicate, insert_replicate_lt by lia.
    rewrite nonzero_app, nonzero_replicate. simpl.
    destruct (Z.eqb_spec v 0); [contradiction|].
    rewrite nonzero_replicate. reflexivity.
  - rewrite take_insert_ge, take_replicate by lia. apply nonzero_replicate.
Qed.

Lemma drop_zeros_le (m : list Z) (k n : nat) :
  (k <= n)%nat -> Forall (eq 0) (drop k m) -> Forall (eq 0) (drop n m).
Proof.
  intros Hk Hz. replace n with (k + (n - k))%nat by lia.
  rewrite <- drop_drop. apply Forall_drop, Hz.
Qed.

(** The marks of a prefix that contains the index just marked. *)
Lemma nonzero_take_marked (m : list Z) (k n : nat) (d : Z) :
  (k < length m)%nat -> (k < n)%nat -> d <> 0 ->
  Forall (eq 0) (drop (S k) m) ->
  nonzero (take n (<[k := d]> m)) = nonzero (take k m) ++ [d].
Proof.
  intros Hk Hn Hd Hz.
  rewrite (nonzero_take_past _ (S k) n)
    by (try lia; rewrite drop_insert_lt by lia; exact Hz).
  rewrite (take_S_r _ _ d) by (apply list_lookup_insert_eq, Hk).
  rewrite take_insert_ge, nonzero_app by lia. simpl.
  destruct (Z.eqb_spec d 0); [contradiction|reflexivity].
Qed.

Lemma alt_inv_stay (N i : nat) (s : state) :
  alt_inv N i s -> alt_inv N (S i) s.
Proof. intros [H1 H2 H3 H4 H5 H6]. split; auto. Qed.

(** The tracked extreme moves to the index handled. *)
Lemma alt_inv_move (N i : nat) (s : state) (v : float) (t : list Z) :
  alt_inv N i s ->
  alt_inv N (S i) (State (direction s) i v (markers_data s) t).
Proof.
  intros [H1 H2 H3 H4 H5 H6]. split; simpl; auto.
  - apply (drop_zeros_le _ (S (last_extreme_index s))); [lia|exact H4].
  - rewrite (nonzero_take_past _ (S (last_extreme_index s))); [exact H6|lia|exact H4].
  - rewrite (nonzero_take_past _ (S (last_extreme_index s))); [exact H6|lia|exact H4].
Qed.

(** A reversal: the tracked extreme is marked with the sign of the trend
    that ends, the direction flips, the tracked extreme moves to [i]. *)
Lemma alt_inv_reverse (N i : nat) (s : state) (v : float) (t : list Z) :
  (i < N)%nat -> alt_inv N i s ->
  alt_inv N (S i)
    (State (- direction s) i v
           (<[last_extreme_index s := direction s]> (markers_data s)) t).
Proof.
  intros Hi [H1 H2 H3 H4 H5 H6].
  assert (Hd : direction s <> 0 /\ direction s <> - direction s) by lia.
  destruct Hd as [Hd0 Hdn].
  split; simpl.
  - rewrite length_insert. exact H1.
  - lia.
  - lia.
  - rewrite drop_insert_lt by lia.
    apply (drop_zeros_le _ (S (last_extreme_index s))); [lia|exact H4].
  - rewrite nonzero_take_marked by (try lia; assumption).
    rewrite Z.opp_involutive. eapply ends_with_snoc; eauto.
  - rewrite nonzero_take_marked by (try lia; assumption).
    rewrite Z.opp_involutive. eapply ends_with_snoc; eauto.
Qed.

(** Once nothing is marked after the tracked extreme and the marks up to
    it alternate, the whole buffer alternates. *)
Lemma alt_inv_alternate (N i : nat) (s : state) :
  alt_inv N i s -> markers_alternate (markers_data s).
Proof.
  intros [H1 H2 H3 H4 H5 [H6 _]]. unfold markers_alternate.
  rewrite (nonzero_past _ _ H4). exact H6.
Qed.

Create HintDb buffers.
#[export] Hint Resolve tri_one tri_minus_one buffers_ok_init
  buffers_ok_set_marker buffers_ok_set_turning_point
  buffers_ok_set_direction buffers_ok_set_last_extreme_index
  buffers_ok_set_last_extreme_value : buffers.

Section Facts.

Variables highs lows : list float.
Variable epsilon : float.

Abbreviation track := (track highs lows).
Abbreviation up_trigger := (up_trigger highs epsilon).
Abbreviation down_trigger := (down_trigger lows epsilon).
Abbreviation prescan := (prescan highs lows epsilon).
Abbreviation main_step := (main_step highs lows epsilon).
Abbreviation main_loop := (main_loop highs lows epsilon).
Abbreviation init_cand := (init_cand highs lows).
Abbreviation candidates := (candidates highs lows).
Abbreviation quiet := (quiet highs lows epsilon).

(** The pre-scan, started after index [i], runs through [n] quiet
    indices. *)
Lemma prescan_quiet (n i : nat) (s : state) :
  (forall j, (i < j <= i + n)%nat -> quiet j) ->
  prescan n (S i) (candidates i) s = PrescanOut 0 (S i + n) (candidates (i + n)) s.
Proof.
  revert i. induction n as [|n IH]; intros i Hq.
  - simpl. rewrite !Nat.add_0_r. reflexivity.
  - cbn [ZigZag.prescan]. change (track (S i) (candidates i)) with (candidates (S i)).
    destruct (Hq (S i) ltac:(lia)) as [-> ->].
    rewrite IH by (intros j Hj; apply Hq; lia).
    f_equal; [lia|f_equal; lia].
Qed.

(** The pre-scan stops at the first index that is not quiet. *)
Lemma prescan_first (n i k : nat) (s : state) :
  (k < n)%nat ->
  (forall j, (i < j <= i + k)%nat -> quiet j) ->
  prescan n (S i) (candidates i) s =
  let c := candidates (S (i + k)) in
  if up_trigger (S (i + k)) c
  then PrescanOut 1 (S (i + k)) c (confirm_up (S (i + k)) c s)
  else if down_trigger (S (i + k)) c
       then PrescanOut (-1) (S (i + k)) c (confirm_down (S (i + k)) c s)
       else prescan (n - S k) (S (S (i + k))) c s.
Proof.
  revert i n. induction k as [|k IH]; intros i n Hk Hq.
  - destruct n as [|n]; [lia|]. rewrite Nat.add_0_r. simpl.
    rewrite Nat.sub_0_r. reflexivity.
  - destruct n as [|n]; [lia|].
    cbn [ZigZag.prescan]. change (track (S i) (candidates i)) with (candidates (S i)).
    destruct (Hq (S i) ltac:(lia)) as [-> ->].
    rewrite IH by (try lia; intros j Hj; apply Hq; lia).
    replace (S i + k)%nat with (i + S k)%nat by lia. reflexivity.
Qed.

Lemma candidates_indices (i : nat) :
  (candidate_low_index (candidates i) <= i)%nat /\
  (candidate_high_index (candidates i) <= i)%nat.
Proof.
  induction i as [|i [IH1 IH2]]; [simpl; lia|].
  cbn [candidates]. unfold ZigZag.track.
  destruct (flt _ _), (fgt _ _); simpl; lia.
Qed.

Lemma buffers_ok_confirm_up N i c s :
  buffers_ok N s -> buffers_ok N (confirm_up i c s).
Proof. intros H. unfold confirm_up. auto 10 with buffers. Qed.

Lemma buffers_ok_confirm_down N i c s :
  buffers_ok N s -> buffers_ok N (confirm_down i c s).
Proof. intros H. unfold confirm_down. auto 10 with buffers. Qed.

Lemma buffers_ok_prescan N n i c s :
  buffers_ok N s -> buffers_ok N (out_state (prescan n i c s)).
Proof.
  revert i c. induction n as [|n IH]; intros i c H; [exact H|].
  cbn [ZigZag.prescan].
  destruct (up_trigger i (track i c)); [apply buffers_ok_confirm_up, H|].
  destruct (down_trigger i (track i c)); [apply buffers_ok_confirm_down, H|].
  apply IH, H.
Qed.

Lemma buffers_ok_main_step N i s :
  buffers_ok N s -> buffers_ok N (main_step i s).
Proof.
  intros H. unfold ZigZag.main_step.
  destruct (direction s =? 1); [|destruct (direction s =? -1); [|exact H]];
    destruct (ratio_test _ _ _);
    try destruct (fgt _ _); try destruct (flt _ _); auto 10 with buffers.
Qed.

Lemma buffers_ok_main_loop N n i s :
  buffers_ok N s -> buffers_ok N (main_loop n i s).
Proof.
  revert i s. induction n as [|n IH]; intros i s H; [exact H|].
  cbn [ZigZag.main_loop]. apply IH, buffers_ok_main_step, H.
Qed.

Lemma buffers_ok_run N : buffers_ok N (run highs lows epsilon N).
Proof.
  unfold run. destruct (_ =? 0).
  - apply buffers_ok_prescan, buffers_ok_init.
  - apply buffers_ok_main_loop, buffers_ok_prescan, buffers_ok_init.
Qed.

(** A quiet pre-scan returns the zeroed buffers. *)
Lemma run_quiet (N : nat) :
  (forall j, (1 <= j < N)%nat -> quiet j) ->
  run highs lows epsilon N = init_state N.
Proof.
  intros Hq. unfold run.
  change init_cand with (candidates 0).
  rewrite prescan_quiet by (intros j Hj; apply Hq; lia).
  reflexivity.
Qed.

(** The run when index [i] is the first that is not quiet. *)
Lemma run_first (N i : nat) :
  (1 <= i < N)%nat ->
  (forall j, (1 <= j < i)%nat -> quiet j) ->
  prescan (N - 1) 1 init_cand (init_state N) =
  (let c := candidates i in
   if up_trigger i c
   then PrescanOut 1 i c (confirm_up i c (init_state N))
   else if down_trigger i c
        then PrescanOut (-1) i c (confirm_down i c (init_state N))
        else prescan (N - 1 - i) (S i) c (init_state N)).
Proof.
  intros Hi Hq. change init_cand with (candidates 0).
  rewrite (prescan_first (N - 1) 0 (i - 1)) by (try lia; intros j Hj; apply Hq; lia).
  replace (S (0 + (i - 1))) with i by lia.
  replace (N - 1 - S (i - 1))%nat with (N - 1 - i)%nat by lia.
  reflexivity.
Qed.

Lemma track_low (i : nat) (c : cand) :
  (candidate_low_index (track i c), candidate_low (track i c)) =
  if flt (rd lows i) (candidate_low c) then (i, rd lows i)
  else (candidate_low_index c, candidate_low c).
Proof. unfold ZigZag.track. destruct (flt _ _), (fgt _ _); reflexivity. Qed.

Lemma track_high (i : nat) (c : cand) :
  (candidate_high_index (track i c), candidate_high (track i c)) =
  if fgt (rd highs i) (candidate_high c) then (i, rd highs i)
  else (candidate_high_index c, candidate_high c).
Proof. unfold ZigZag.track. destruct (flt _ _), (fgt _ _); reflexivity. Qed.

Lemma candidates_low_min (i : nat) :
  is_running_min lows i (candidate_low_index (candidates i))
                 (candidate_low (candidates i)).
Proof.
  induction i as [|i (Hk & Hv & Hmin & Hfirst)].
  - repeat split; simpl; auto.
    + intros j Hj. replace j with 0%nat by lia. apply ltb_irrefl.
    + intros j Hj. lia.
  - cbn [candidates].
    pose proof (track_low (S i) (candidates i)) as Ht.
    destruct (flt (rd lows (S i)) (candidate_low (candidates i))) eqn:Hlt;
      injection Ht as -> ->.
    + repeat split; auto.
      * intros j Hj. destruct (decide (j = S i)) as [->|Hne];
          [apply ltb_irrefl|].
        destruct (flt (rd lows j) (rd lows (S i))) eqn:Hj'; [|reflexivity].
        rewrite <- (Hmin j ltac:(lia)). symmetry.
        exact (ltb_trans _ _ _ Hj' Hlt).
      * intros j Hj.
        destruct (rd lows j =? rd lows (S i))%float eqn:Heq; [|reflexivity].
        rewrite <- (Hmin j ltac:(lia)). unfold flt.
        rewrite (eqb_ltb_l _ _ _ Heq). symmetry. exact Hlt.
    + repeat split; auto.
      intros j Hj. destruct (decide (j = S i)) as [->|Hne]; [exact Hlt|].
      apply Hmin. lia.
Qed.

Lemma candidates_high_max (i : nat) :
  is_running_max highs i (candidate_high_index (candidates i))
                 (candidate_high (candidates i)).
Proof.
  induction i as [|i (Hk & Hv & Hmax & Hfirst)].
  - repeat split; simpl; auto.
    + intros j Hj. replace j with 0%nat by lia. apply ltb_irrefl.
    + intros j Hj. lia.
  - cbn [candidates].
    pose proof (track_high (S i) (candidates i)) as Ht.
    destruct (fgt (rd highs (S i)) (candidate_high (candidates i))) eqn:Hgt;
      injection Ht as -> ->.
    + repeat split; auto.
      * intros j Hj. destruct (decide (j = S i)) as [->|Hne];
          [apply ltb_irrefl|].
        destruct (fgt (rd highs j) (rd highs (S i))) eqn:Hj'; [|reflexivity].
        rewrite <- (Hmax j ltac:(lia)). symmetry.
        exact (ltb_trans _ _ _ Hgt Hj').
      * intros j Hj.
        destruct (rd highs j =? rd highs (S i))%float eqn:Heq; [|reflexivity].
        rewrite <- (Hmax j ltac:(lia)). unfold fgt.
        rewrite (eqb_ltb_r _ _ _ Heq). symmetry. exact Hgt.
    + repeat split; auto.
      intros j Hj. destruct (decide (j = S i)) as [->|Hne]; [exact Hgt|].
      apply Hmax. lia.
Qed.

(** The main loop writes [turning_points_data] at the index it handles
    and [markers_data] at the tracked extreme only, and moves the tracked
    extreme to the index it handles or leaves it. *)
Lemma main_step_turning_frame (i k : nat) (s : state) :
  k <> i ->
  turning_points_data (main_step i s) !! k = turning_points_data s !! k.
Proof.
  intros Hk. unfold ZigZag.main_step.
  destruct (direction s =? 1); [|destruct (direction s =? -1); [|reflexivity]];
    destruct (ratio_test _ _ _);
    try destruct (fgt _ _); try destruct (flt _ _); simpl;
    rewrite ?list_lookup_insert_ne by congruence; reflexivity.
Qed.

Lemma main_step_markers_frame (i k : nat) (s : state) :
  k <> last_extreme_index s ->
  markers_data (main_step i s) !! k = markers_data s !! k.
Proof.
  intros Hk. unfold ZigZag.main_step.
  destruct (direction s =? 1); [|destruct (direction s =? -1); [|reflexivity]];
    destruct (ratio_test _ _ _);
    try destruct (fgt _ _); try destruct (flt _ _); simpl;
    rewrite ?list_lookup_insert_ne by congruence; reflexivity.
Qed.

Lemma main_step_last_extreme_index (i : nat) (s : state) :
  last_extreme_index (main_step i s) = last_extreme_index s \/
  last_extreme_index (main_step i s) = i.
Proof.
  unfold ZigZag.main_step.
  destruct (direction s =? 1); [|destruct (direction s =? -1); [|auto]];
    destruct (ratio_test _ _ _);
    try destruct (fgt _ _); try destruct (flt _ _); simpl; auto.
Qed.

(** The tracked extreme stays before the index the main loop handles
    next, so every write of the loop is in range. *)
Lemma main_loop_last_extreme_bound (n i : nat) (s : state) :
  (last_extreme_index s < i)%nat ->
  (last_extreme_index (main_loop n i s) < i + n)%nat.
Proof.
  revert i s. induction n as [|n IH]; intros i s Hs; [simpl; lia|].
  cbn [ZigZag.main_loop]. replace (i + S n)%nat with (S i + n)%nat by lia.
  apply IH. destruct (main_step_last_extreme_index i s) as [-> | ->]; lia.
Qed.

Lemma main_loop_turning_frame (n i k : nat) (s : state) :
  (k < i)%nat ->
  turning_points_data (main_loop n i s) !! k = turning_points_data s !! k.
Proof.
  revert i s. induction n as [|n IH]; intros i s Hk; [reflexivity|].
  cbn [ZigZag.main_loop]. rewrite IH by lia.
  apply main_step_turning_frame. lia.
Qed.

Lemma main_loop_markers_frame (n i k : nat) (s : state) :
  (k < i)%nat -> k <> last_extreme_index s ->
  markers_data (main_loop n i s) !! k = markers_data s !! k.
Proof.
  revert i s. induction n as [|n IH]; intros i s Hk Hne; [reflexivity|].
  cbn [ZigZag.main_loop]. rewrite IH.
  - apply main_step_markers_frame, Hne.
  - lia.
  - destruct (main_step_last_extreme_index i s) as [-> | ->]; [exact Hne|lia].
Qed.

Lemma main_step_alt_inv (N i : nat) (s : state) :
  (i < N)%nat -> alt_inv N i s -> alt_inv N (S i) (main_step i s).
Proof.
  intros Hi Hinv. pose proof (ai_direction _ _ _ Hinv) as Hd.
  destruct s as [d le lev m t]. simpl in Hd.
  unfold ZigZag.main_step.
  destruct Hd as [-> | ->]; simpl;
    destruct (ratio_test _ _ _); simpl;
    try destruct (fgt _ _); try destruct (flt _ _); simpl;
    first [ exact (alt_inv_reverse N i _ _ _ Hi Hinv)
          | exact (alt_inv_move N i _ _ _ Hinv)
          | exact (alt_inv_stay N i _ Hinv) ].
Qed.

Lemma main_loop_alt_inv (N n i : nat) (s : state) :
  (i + n <= N)%nat -> alt_inv N i s -> alt_inv N (i + n) (main_loop n i s).
Proof.
  revert i s. induction n as [|n IH]; intros i s Hn Hinv.
  - rewrite Nat.add_0_r. exact Hinv.
  - cbn [ZigZag.main_loop]. replace (i + S n)%nat with (S i + n)%nat by lia.
    apply IH; [lia|]. apply main_step_alt_inv; [lia|exact Hinv].
Qed.

(** The state the upward branch leaves, when the trough it marks is not
    after the candidate high it starts to track. *)
Lemma confirm_up_alt_inv (N i : nat) (c : cand) :
  (i < N)%nat ->
  (candidate_low_index c <= candidate_high_index c)%nat ->
  (candidate_high_index c <= i)%nat ->
  alt_inv N (S i) (confirm_up i c (init_state N)).
Proof.
  intros Hi Hlh Hh. split; simpl.
  - rewrite length_insert. apply length_replicate.
  - left; reflexivity.
  - lia.
  - rewrite drop_insert_lt, drop_replicate by lia. apply Forall_replicate_eq.
  - rewrite nonzero_take_single by lia.
    destruct (decide _); split; auto.
  - rewrite nonzero_take_single by lia.
    destruct (decide _); split; auto.
Qed.

(** The same for the downward branch, when the peak it marks is not
    after the candidate low it starts to track. *)
Lemma confirm_down_alt_inv (N i : nat) (c : cand) :
  (i < N)%nat ->
  (candidate_high_index c <= candidate_low_index c)%nat ->
  (candidate_low_index c <= i)%nat ->
  alt_inv N (S i) (confirm_down i c (init_state N)).
Proof.
  intros Hi Hlh Hh. split; simpl.
  - rewrite length_insert. apply length_replicate.
  - right; reflexivity.
  - lia.
  - rewrite drop_insert_lt, drop_replicate by lia. apply Forall_replicate_eq.
  - rewrite nonzero_take_single by lia.
    destruct (decide _); split; auto.
  - rewrite nonzero_take_single by lia.
    destruct (decide _); split; auto.
Qed.

(** How the pre-scan ends: without a trend and with the state untouched,
    or at an index of its range in one of the two branches. *)
Lemma prescan_cases (n i : nat) (c : cand) (s : state) :
  (candidate_low_index c < i)%nat -> (candidate_high_index c < i)%nat ->
  let p := prescan n i c s in
  (trend_detected p = 0 /\ out_state p = s) \/
  ((trend_detected p = 1 /\
    out_state p = confirm_up (stop_index p) (cands p) s \/
    trend_detected p = -1 /\
    out_state p = confirm_down (stop_index p) (cands p) s) /\
   (i <= stop_index p < i + n)%nat /\
   (candidate_low_index (cands p) <= stop_index p)%nat /\
   (candidate_high_index (cands p) <= stop_index p)%nat).
Proof.
  revert i c. induction n as [|n IH]; intros i c Hl Hh; [left; auto|].
  cbn [ZigZag.prescan].
  assert (Ht : (candidate_low_index (track i c) <= i)%nat /\
               (candidate_high_index (track i c) <= i)%nat).
  { unfold ZigZag.track. destruct (flt _ _), (fgt _ _); simpl; lia. }
  destruct Ht as [Htl Hth].
  destruct (up_trigger i (track i c)).
  { right. simpl. repeat split; auto; lia. }
  destruct (down_trigger i (track i c)).
  { right. simpl. repeat split; auto; lia. }
  destruct (IH (S i) (track i c) ltac:(lia) ltac:(lia)) as [H | (H & Hs & H')].
  - left. exact H.
  - right. repeat split; auto; lia.
Qed.

End Facts.

(** On a positive threshold the ratio of a value to itself never passes
    the test: [c / c - 1] is zero or a NaN. *)
Lemma ratio_test_diag (c epsilon : float) :
  (0 <? epsilon)%float = true -> ratio_test c c epsilon = false.
Proof.
  intros He. unfold ratio_test, fge. rewrite div_diag.
  destruct (Prim2SF c).
  - change (nan - 1)%float with nan. apply leb_nan_r.
  - change (nan - 1)%float with nan. apply leb_nan_r.
  - change (nan - 1)%float with nan. apply leb_nan_r.
  - change (1 - 1)%float with 0%float. apply leb_zero_pos, He.
Qed.

Lemma rd_replicate (N j : nat) (c : float) :
  (j < N)%nat -> rd (replicate N c) j = c.
Proof.
  intros Hj. unfold rd. apply nth_lookup_Some, lookup_replicate_2, Hj.
Qed.

(** On a constant series the candidates never move. *)
Lemma candidates_constant (N j : nat) (c : float) :
  (0 < N)%nat -> (j < N)%nat ->
  candidates (replicate N c) (replicate N c) j = Cand 0 0 c c.
Proof.
  intros HN. induction j as [|j IH]; intros Hj.
  - simpl. unfold init_cand. rewrite !rd_replicate by lia. reflexivity.
  - cbn [candidates]. rewrite IH by lia. unfold track, flt, fgt. simpl.
    rewrite !rd_replicate by lia. rewrite ltb_irrefl. simpl.
    rewrite ltb_irrefl. reflexivity.
Qed.

Lemma quiet_constant (N j : nat) (c epsilon : float) :
  (0 <? epsilon)%float = true -> (j < N)%nat ->
  quiet (replicate N c) (replicate N c) epsilon j.
Proof.
  intros He Hj. unfold quiet, up_trigger, down_trigger.
  rewrite candidates_constant by lia. simpl.
  rewrite rd_replicate by lia. split; apply ratio_test_diag, He.
Qed.

Lemma calculate_zigzag_run (highs lows : list float) (epsilon : float) :
  length highs = length lows ->
  calculate_zigzag highs lows epsilon =
  Ok (markers_data (run highs lows epsilon (length highs)),
      turning_points_data (run highs lows epsilon (length highs))).
Proof.
  intros H. unfold calculate_zigzag. rewrite H, Nat.eqb_refl. reflexivity.
Qed.

End ZigZagFacts.

Module ZigZagClaims.
Import ZigZag ZigZagSpec FloatFacts ZigZagFacts.

(** C5. If no index satisfies either Phase-A trigger condition, both
    returned arrays are all zero, of length [N]. This covers every input
    of length 1 (the pre-scan loop does not run) and, for a positive
    threshold, every constant series (all highs and lows equal to one
    value, whatever it is). *)
Theorem zigzag_quiet_all_zero :
  (forall (highs lows : list float) (epsilon : float),
      length highs = length lows ->
      (forall j, (1 <= j < length highs)%nat -> quiet highs lows epsilon j) ->
      calculate_zigzag highs lows epsilon =
      Ok (replicate (length highs) 0, replicate (length highs) 0)) /\
  (forall (h l epsilon : float),
      calculate_zigzag [h] [l] epsilon = Ok ([0], [0])) /\
  (forall (N : nat) (c epsilon : float),
      (0 <? epsilon)%float = true ->
      calculate_zigzag (replicate N c) (replicate N c) epsilon =
      Ok (replicate N 0, replicate N 0)).
Proof.
  assert (Hq : forall highs lows epsilon,
      length highs = length lows ->
      (forall j, (1 <= j < length highs)%nat -> quiet highs lows epsilon j) ->
      calculate_zigzag highs lows epsilon =
      Ok (replicate (length highs) 0, replicate (length highs) 0)).
  { intros highs lows epsilon Hlen H.
    rewrite calculate_zigzag_run, run_quiet by assumption. reflexivity. }
  split; [exact Hq|]. split.
  - intros h l epsilon. reflexivity.
  - intros N c epsilon He.
    rewrite Hq; rewrite ?length_replicate; try reflexivity.
    intros j Hj. apply quiet_constant; [exact He|lia].
Qed.

(** Scenarios 2 and 4 of the specification, through
    [zigzag_quiet_all_zero]. *)
Lemma zigzag_quiet_all_zero_witness :
  calculate_zigzag (replicate 10 100%float) (replicate 10 100%float) 0.5%float =
  Ok (replicate 10 0, replicate 10 0) /\
  calculate_zigzag [42%float] [41%float] 0.5%float = Ok ([0], [0]).
Proof.
  split.
  - apply (proj2 (proj2 zigzag_quiet_all_zero) 10%nat 100%float 0.5%float).
    reflexivity.
  - apply (proj1 (proj2 zigzag_quiet_all_zero)).
Defined.

(** C6. For highs and lows of one length [N] the call returns two
    arrays of length [N] whose elements are all -1, 0 or 1. *)
Theorem zigzag_output_shape (highs lows : list float) (epsilon : float) :
  length highs = length lows ->
  exists markers turning_points,
    calculate_zigzag highs lows epsilon = Ok (markers, turning_points) /\
    length markers = length highs /\
    length turning_points = length highs /\
    Forall tri markers /\ Forall tri turning_points.
Proof.
  intros Hlen. rewrite calculate_zigzag_run by assumption.
  destruct (buffers_ok_run highs lows epsilon (length highs)) as [H1 H2 H3 H4].
  eauto 10.
Qed.

(** [zigzag_output_shape] on scenario 3 of the specification. *)
Lemma zigzag_output_shape_witness :
  exists markers turning_points,
    calculate_zigzag [100;100;100;160;100]%float [100;100;100;100;100]%float
                     0.5%float = Ok (markers, turning_points) /\
    length markers = 5%nat /\ length turning_points = 5%nat /\
    Forall tri markers /\ Forall tri turning_points.
Proof.
  apply (zigzag_output_shape [100;100;100;160;100]%float
                             [100;100;100;100;100]%float 0.5%float).
  reflexivity.
Defined.

(** C1. When the first trigger to fire is the upward one, at index [i]:
    the candidate low is the least of [lows[0..i]] at its first index and
    the candidate high the greatest of [highs[0..i]]; the pre-scan stops
    at [i] having written [markers[candidateLowIndex] = -1] and
    [turningPoints[i] = 1] into the zeroed buffers, with direction 1 and
    the candidate high and its index as the tracked extreme; the call
    returns what the main loop makes of that state from index [i + 1],
    and the returned [turningPoints[i]] is 1, the returned
    [markers[candidateLowIndex]] is -1 unless the candidate high sits at
    the same index. *)
Theorem first_trigger_up (highs lows : list float) (epsilon : float) (i : nat) :
  length highs = length lows ->
  (1 <= i < length highs)%nat ->
  (forall j, (1 <= j < i)%nat -> quiet highs lows epsilon j) ->
  up_trigger highs epsilon i (candidates highs lows i) = true ->
  let N := length highs in
  let c := candidates highs lows i in
  let p := prescan highs lows epsilon (N - 1) 1 (init_cand highs lows) (init_state N) in
  let st := out_state p in
  let fin := main_loop highs lows epsilon (N - (i + 1)) (i + 1) st in
  is_running_min lows i (candidate_low_index c) (candidate_low c) /\
  is_running_max highs i (candidate_high_index c) (candidate_high c) /\
  trend_detected p = 1 /\ stop_index p = i /\ cands p = c /\
  markers_data st = <[candidate_low_index c := -1]> (replicate N 0) /\
  turning_points_data st = <[i := 1]> (replicate N 0) /\
  markers_data st !! candidate_low_index c = Some (-1) /\
  turning_points_data st !! i = Some 1 /\
  direction st = 1 /\
  last_extreme_index st = candidate_high_index c /\
  last_extreme_value st = candidate_high c /\
  calculate_zigzag highs lows epsilon =
    Ok (markers_data fin, turning_points_data fin) /\
  turning_points_data fin !! i = Some 1 /\
  (candidate_high_index c <> candidate_low_index c ->
   markers_data fin !! candidate_low_index c = Some (-1)).
Proof.
  intros Hlen Hi Hq Hup N c p st fin.
  pose proof (candidates_indices highs lows i) as [Hcl Hch]. fold c in Hcl, Hch.
  assert (Hp : p = PrescanOut 1 i c (confirm_up i c (init_state N))).
  { unfold p. rewrite (run_first highs lows epsilon N i Hi Hq).
    cbv zeta. rewrite Hup. reflexivity. }
  assert (Hst : st = confirm_up i c (init_state N)) by (unfold st; rewrite Hp; reflexivity).
  assert (Hm : markers_data st !! candidate_low_index c = Some (-1)).
  { rewrite Hst. simpl. apply list_lookup_insert_eq.
    rewrite length_replicate. unfold N. lia. }
  assert (Ht : turning_points_data st !! i = Some 1).
  { rewrite Hst. simpl. apply list_lookup_insert_eq.
    rewrite length_replicate. unfold N. lia. }
  split; [apply candidates_low_min|]. split; [apply candidates_high_max|].
  rewrite Hp at 1 2 3. simpl. do 3 (split; [reflexivity|]).
  split; [rewrite Hst; reflexivity|]. split; [rewrite Hst; reflexivity|].
  split; [exact Hm|]. split; [exact Ht|].
  split; [rewrite Hst; reflexivity|]. split; [rewrite Hst; reflexivity|].
  split; [rewrite Hst; reflexivity|].
  split; [|split].
  - rewrite calculate_zigzag_run by assumption. unfold run, fin, st.
    fold N p. rewrite Hp. reflexivity.
  - unfold fin. rewrite main_loop_turning_frame by lia. exact Ht.
  - intros Hne. unfold fin. rewrite main_loop_markers_frame; [exact Hm|lia|].
    rewrite Hst. simpl. congruence.
Qed.

(** Scenario 3 of the specification, through [first_trigger_up]. *)
Lemma first_trigger_up_witness :
  exists markers turning_points,
    calculate_zigzag [100;100;100;160;100]%float [100;100;100;100;100]%float
                     0.5%float = Ok (markers, turning_points) /\
    markers !! 0%nat = Some (-1) /\ turning_points !! 3%nat = Some 1.
Proof.
  assert (Hq : forall j, (1 <= j < 3)%nat ->
    quiet [100;100;100;160;100]%float [100;100;100;100;100]%float 0.5%float j).
  { intros j Hj. assert (Hc : j = 1%nat \/ j = 2%nat) by lia.
    destruct Hc as [-> | ->]; split; reflexivity. }
  destruct (first_trigger_up [100;100;100;160;100]%float
              [100;100;100;100;100]%float 0.5%float 3
              eq_refl ltac:(simpl; lia) Hq eq_refl)
    as (_ & _ & _ & _ & _ & _ & _ & _ & _ & _ & _ & _ & Hr & Ht & Hm).
  eexists _, _. split; [exact Hr|]. split; [|exact Ht].
  apply Hm. simpl. lia.
Defined.

(** The trough marked by the upward branch can be overwritten later: when
    the candidate high sits at the same index, the first reversal of the
    main loop marks that index as a peak. *)
Example first_marker_overwritten :
  calculate_zigzag [200;150;150]%float [100;120;100]%float 0.5 =
  Ok ([1; 0; 0], [0; 1; -1]).
Proof. reflexivity. Qed.

(** C2. When the first trigger to fire is the downward one, at index [i]
    (no trigger before [i], and the upward test fails at [i]): the
    pre-scan stops at [i] having written [markers[candidateHighIndex] = 1]
    and [turningPoints[candidateHighIndex] = -1], both at the index of
    the candidate high, with direction -1 and the candidate low and its
    index as the tracked extreme; in the returned arrays
    [turningPoints[candidateHighIndex]] is -1, [turningPoints[i]] is 0
    when [i] is not that index, and [markers[candidateHighIndex]] is 1
    unless the candidate low sits at the same index. *)
Theorem first_trigger_down (highs lows : list float) (epsilon : float) (i : nat) :
  length highs = length lows ->
  (1 <= i < length highs)%nat ->
  (forall j, (1 <= j < i)%nat -> quiet highs lows epsilon j) ->
  up_trigger highs epsilon i (candidates highs lows i) = false ->
  down_trigger lows epsilon i (candidates highs lows i) = true ->
  let N := length highs in
  let c := candidates highs lows i in
  let p := prescan highs lows epsilon (N - 1) 1 (init_cand highs lows) (init_state N) in
  let st := out_state p in
  let fin := main_loop highs lows epsilon (N - (i + 1)) (i + 1) st in
  is_running_min lows i (candidate_low_index c) (candidate_low c) /\
  is_running_max highs i (candidate_high_index c) (candidate_high c) /\
  trend_detected p = -1 /\ stop_index p = i /\ cands p = c /\
  markers_data st = <[candidate_high_index c := 1]> (replicate N 0) /\
  turning_points_data st = <[candidate_high_index c := -1]> (replicate N 0) /\
  markers_data st !! candidate_high_index c = Some 1 /\
  turning_points_data st !! candidate_high_index c = Some (-1) /\
  direction st = -1 /\
  last_extreme_index st = candidate_low_index c /\
  last_extreme_value st = candidate_low c /\
  calculate_zigzag highs lows epsilon =
    Ok (markers_data fin, turning_points_data fin) /\
  turning_points_data fin !! candidate_high_index c = Some (-1) /\
  (candidate_high_index c <> i -> turning_points_data fin !! i = Some 0) /\
  (candidate_low_index c <> candidate_high_index c ->
   markers_data fin !! candidate_high_index c = Some 1).
Proof.
  intros Hlen Hi Hq Hup Hdown N c p st fin.
  pose proof (candidates_indices highs lows i) as [Hcl Hch]. fold c in Hcl, Hch.
  assert (Hp : p = PrescanOut (-1) i c (confirm_down i c (init_state N))).
  { unfold p. rewrite (run_first highs lows epsilon N i Hi Hq).
    cbv zeta. rewrite Hup, Hdown. reflexivity. }
  assert (Hst : st = confirm_down i c (init_state N)) by (unfold st; rewrite Hp; reflexivity).
  assert (Hm : markers_data st !! candidate_high_index c = Some 1).
  { rewrite Hst. simpl. apply list_lookup_insert_eq.
    rewrite length_replicate. unfold N. lia. }
  assert (Ht : turning_points_data st !! candidate_high_index c = Some (-1)).
  { rewrite Hst. simpl. apply list_lookup_insert_eq.
    rewrite length_replicate. unfold N. lia. }
  split; [apply candidates_low_min|]. split; [apply candidates_high_max|].
  rewrite Hp at 1 2 3. simpl. do 3 (split; [reflexivity|]).
  split; [rewrite Hst; reflexivity|]. split; [rewrite Hst; reflexivity|].
  split; [exact Hm|]. split; [exact Ht|].
  split; [rewrite Hst; reflexivity|]. split; [rewrite Hst; reflexivity|].
  split; [rewrite Hst; reflexivity|].
  split; [|split; [|split]].
  - rewrite calculate_zigzag_run by assumption. unfold run, fin, st.
    fold N p. rewrite Hp. reflexivity.
  - unfold fin. rewrite main_loop_turning_frame by lia. exact Ht.
  - intros Hne. unfold fin. rewrite main_loop_turning_frame by lia.
    rewrite Hst. simpl. rewrite list_lookup_insert_ne by exact Hne.
    apply lookup_replicate_2. unfold N. lia.
  - intros Hne. unfold fin. rewrite main_loop_markers_frame; [exact Hm|lia|].
    rewrite Hst. simpl. congruence.
Qed.

(** [first_trigger_down] on highs [200, 100], lows [190, 100] and
    threshold 0.5: the peak is index 0, the trigger fires at index 1. *)
Lemma first_trigger_down_witness :
  calculate_zigzag [200;100]%float [190;100]%float 0.5%float =
    Ok ([1; 0], [-1; 0]) /\
  exists markers turning_points,
    calculate_zigzag [200;100]%float [190;100]%float 0.5%float =
      Ok (markers, turning_points) /\
    markers !! 0%nat = Some 1 /\ turning_points !! 0%nat = Some (-1) /\
    turning_points !! 1%nat = Some 0.
Proof.
  split; [reflexivity|].
  assert (Hq : forall j, (1 <= j < 1)%nat ->
    quiet [200;100]%float [190;100]%float 0.5%float j) by (intros j Hj; lia).
  destruct (first_trigger_down [200;100]%float [190;100]%float 0.5%float 1
              eq_refl ltac:(simpl; lia) Hq eq_refl eq_refl)
    as (_ & _ & _ & _ & _ & _ & _ & _ & _ & _ & _ & _ & Hr & Ht & Hi & Hm).
  eexists _, _. split; [exact Hr|]. split; [|split; [exact Ht|]].
  - apply Hm. simpl. lia.
  - apply Hi. simpl. lia.
Defined.

(** C3, as stated, fails. On scenario 3 the main loop starts at index 4
    in an uptrend whose tracked extreme is index 3 (high 160); the
    reversal at 4 leaves the tracked extreme at index 4 with the value
    [highs[4] = 100], not [highs[3]]. *)
Lemma reset_reads_old_extreme_counterexample :
  let highs := [100;100;100;160;100]%float in
  let lows := [100;100;100;100;100]%float in
  let st := out_state (prescan highs lows 0.5 4 1 (init_cand highs lows)
                               (init_state 5)) in
  direction st = 1 /\ last_extreme_index st = 3%nat /\
  ratio_test (last_extreme_value st) (rd lows 4) 0.5 = true /\
  last_extreme_index (main_step highs lows 0.5 4 st) = 4%nat /\
  last_extreme_value (main_step highs lows 0.5 4 st) = rd highs 4 /\
  ~ reset_reads_old_extreme highs lows 0.5 4 st.
Proof.
  cbv zeta. do 5 (split; [reflexivity|]).
  intros [H _]. specialize (H eq_refl eq_refl).
  apply (f_equal (fun x => (x <? 160)%float)) in H.
  vm_compute in H. discriminate H.
Qed.

(** C3, amended. A reversal confirmed at index [i] marks the old extreme
    index, records the confirmation at [i], and resets the tracked
    extreme to index [i] with the value read at [i] itself: [highs[i]]
    when the trend flips from up to down, [lows[i]] when it flips from
    down to up. *)
Theorem reversal_resets_at_current_index
    (highs lows : list float) (epsilon : float) (i : nat) (s : state) :
  (direction s = 1 ->
   ratio_test (last_extreme_value s) (rd lows i) epsilon = true ->
   main_step highs lows epsilon i s =
   State (-1) i (rd highs i)
         (<[last_extreme_index s := 1]> (markers_data s))
         (<[i := -1]> (turning_points_data s))) /\
  (direction s = -1 ->
   ratio_test (rd highs i) (last_extreme_value s) epsilon = true ->
   main_step highs lows epsilon i s =
   State 1 i (rd lows i)
         (<[last_extreme_index s := -1]> (markers_data s))
         (<[i := 1]> (turning_points_data s))).
Proof.
  split; intros Hd Hr; unfold main_step; rewrite Hd, Hr; simpl;
    unfold fgt, flt; rewrite ltb_irrefl; reflexivity.
Qed.

(** [reversal_resets_at_current_index] on the reversal of the
    counterexample. *)
Lemma reversal_resets_at_current_index_witness :
  let highs := [100;100;100;160;100]%float in
  let lows := [100;100;100;100;100]%float in
  main_step highs lows 0.5 4
            (State 1 3 160 [-1;0;0;0;0] [0;0;0;1;0]) =
  State (-1) 4 100 [-1;0;0;1;0] [0;0;0;1;-1].
Proof.
  exact (proj1 (reversal_resets_at_current_index
                  [100;100;100;160;100]%float [100;100;100;100;100]%float
                  0.5 4 (State 1 3 160 [-1;0;0;0;0] [0;0;0;1;0]))
               eq_refl eq_refl).
Defined.

(** C7, as stated, fails on both counts. With [epsilon = -1] and a zero
    low the call returns arrays: at index 1 the upward test divides zero
    by the zero candidate low, the downward test divides 100 by the zero
    low and fires, and at index 2 the reversal test divides by the zero
    tracked extreme and fires. With [epsilon = 0.5] and a zero low at
    index 1 the upward test divides 50 by zero and fires. *)
Lemma rejects_nonpositive_epsilon_counterexample :
  let highs := [100;0;5]%float in
  let lows := [100;0;7]%float in
  ((-1 <=? 0)%float = true /\
   candidate_low (candidates highs lows 1) = 0%float /\
   rd lows 1 = 0%float /\
   last_extreme_value
     (out_state (prescan highs lows (-1) 2 1 (init_cand highs lows)
                         (init_state 3))) = 0%float /\
   calculate_zigzag highs lows (-1) = Ok ([1;-1;0], [-1;0;1])) /\
  ~ rejects_nonpositive_epsilon /\
  (candidate_low (candidates [100;50]%float [100;0]%float 1) = 0%float /\
   calculate_zigzag [100;50]%float [100;0]%float 0.5 = Ok ([0;-1], [0;1])) /\
  ~ guards_zero_denominator.
Proof.
  cbv zeta. split; [repeat split|]. split; [|split; [split; reflexivity|]].
  - intros H.
    destruct (H [100;0;5]%float [100;0;7]%float (-1)%float eq_refl) as [e He].
    vm_compute in He. discriminate He.
  - intros H.
    destruct (H [100;50]%float [100;0]%float 0.5%float eq_refl
                ltac:(simpl; lia) eq_refl) as [e He].
    vm_compute in He. discriminate He.
Qed.

(** C7, amended. The call rejects a pair of arrays of different lengths
    and nothing else: for arrays of one length it returns the two
    buffers whatever [epsilon] and the prices are. No ratio test guards
    its denominator, and the division is the IEEE one. The zero
    denominators are [+0.0] and [-0.0]. A nonzero numerator over a zero
    gives the infinity whose sign is the product of the two signs: the
    test against [+infinity] passes for every [epsilon] that is not a
    NaN, the test against [-infinity] fails for every [epsilon] above
    [-infinity]. A zero numerator over a zero, or a NaN numerator, gives
    a NaN and the test fails. *)
Theorem zigzag_rejects_only_length_mismatch :
  (forall (highs lows : list float) (epsilon : float),
      length highs <> length lows ->
      calculate_zigzag highs lows epsilon = Err LengthMismatch) /\
  (forall (highs lows : list float) (epsilon : float),
      length highs = length lows ->
      calculate_zigzag highs lows epsilon =
      Ok (markers_data (run highs lows epsilon (length highs)),
          turning_points_data (run highs lows epsilon (length highs)))) /\
  (forall (y : float),
      (y =? 0)%float = true -> y = 0%float \/ y = neg_zero) /\
  (forall (x epsilon : float),
      (0 <? x)%float = true ->
      ratio_test x 0 epsilon = (epsilon <=? infinity)%float /\
      ratio_test x neg_zero epsilon = (epsilon <=? neg_infinity)%float) /\
  (forall (x epsilon : float),
      (x <? 0)%float = true ->
      ratio_test x 0 epsilon = (epsilon <=? neg_infinity)%float /\
      ratio_test x neg_zero epsilon = (epsilon <=? infinity)%float) /\
  (forall (x y epsilon : float),
      (x =? 0)%float = true -> (y =? 0)%float = true ->
      ratio_test x y epsilon = false) /\
  (forall (x y epsilon : float),
      (x =? x)%float = false -> ratio_test x y epsilon = false) /\
  (forall (epsilon : float),
      (epsilon =? epsilon)%float = true ->
      (epsilon <=? infinity)%float = true) /\
  (forall (epsilon : float),
      (neg_infinity <? epsilon)%float = true ->
      (epsilon <=? neg_infinity)%float = false).
Proof.
  split; [|split; [|split; [|split; [|split; [|split; [|split; [|split]]]]]]].
  - intros highs lows epsilon Hne. unfold calculate_zigzag.
    destruct (Nat.eqb_spec (length highs) (length lows)); [contradiction|].
    reflexivity.
  - intros highs lows epsilon Hlen. apply calculate_zigzag_run, Hlen.
  - exact eqb_zero_cases.
  - intros x epsilon Hx. unfold ratio_test, fge.
    rewrite (div_pos_zero x Hx), (div_pos_neg_zero x Hx). split; reflexivity.
  - intros x epsilon Hx. unfold ratio_test, fge.
    rewrite (div_neg_zero x Hx), (div_neg_neg_zero x Hx). split; reflexivity.
  - intros x y epsilon Hx Hy. unfold ratio_test, fge.
    rewrite (div_zero_zero x y Hx Hy).
    change (nan - 1)%float with nan. apply leb_nan_r.
  - intros x y epsilon Hx. unfold ratio_test, fge.
    rewrite (div_nan_l x y Hx).
    change (nan - 1)%float with nan. apply leb_nan_r.
  - exact leb_infinity.
  - exact leb_neg_infinity.
Qed.

(** [zigzag_rejects_only_length_mismatch] on a mismatched pair, on the
    call of the counterexample and on the ratios [100 / 0] and
    [50 / -0]. *)
Lemma zigzag_rejects_only_length_mismatch_witness :
  calculate_zigzag [100;0]%float [100]%float 0.5 = Err LengthMismatch /\
  (exists markers turning_points,
      calculate_zigzag [100;0;5]%float [100;0;7]%float (-1) =
      Ok (markers, turning_points)) /\
  ratio_test 100 0 (-1) = true /\
  ratio_test 50 neg_zero 0.5 = false.
Proof.
  pose proof zigzag_rejects_only_length_mismatch
    as (H1 & H2 & _ & H4 & _ & _ & _ & H8 & H9).
  split; [|split; [|split]].
  - apply H1. simpl. lia.
  - eexists _, _. apply H2. reflexivity.
  - rewrite (proj1 (H4 100%float (-1)%float eq_refl)). apply H8. reflexivity.
  - rewrite (proj2 (H4 50%float 0.5%float eq_refl)). apply H9. reflexivity.
Defined.

(** C4. The code breaks the alternation the claim states. With highs
    [200, 150, 100, 150], lows [100, 50, 50, 50] and threshold 0.5 the
    upward trigger fires at index 1 and marks the trough at index 1
    (the initial turning point), but the extreme it hands to the main
    loop is the candidate high of index 0, which lies before that
    trough; the main loop then marks the peak at 0 and the next trough
    at 2, so the returned markers read 1, -1, -1: two troughs in a
    row. *)
Lemma markers_alternate_counterexample :
  candidate_low_index
    (candidates [200;150;100;150]%float [100;50;50;50]%float 1) = 1%nat /\
  candidate_high_index
    (candidates [200;150;100;150]%float [100;50;50;50]%float 1) = 0%nat /\
  up_trigger [200;150;100;150]%float 0.5 1
    (candidates [200;150;100;150]%float [100;50;50;50]%float 1) = true /\
  calculate_zigzag [200;150;100;150]%float [100;50;50;50]%float 0.5 =
    Ok ([1; -1; -1; 0], [0; 1; -1; 1]) /\
  ~ markers_alternate [1; -1; -1; 0].
Proof.
  do 4 (split; [reflexivity|]). unfold markers_alternate. simpl. discriminate.
Qed.

(** A sufficient condition for the markers to alternate: the extreme
    that the pre-scan marks is not at a higher index than the extreme it
    hands to the main loop (after an upward trigger the candidate low is
    not after the candidate high, after a downward trigger the candidate
    high is not after the candidate low). The marks of the main loop
    alone always alternate ([alt_inv]). *)
Theorem markers_alternate_when_seed_follows
    (highs lows : list float) (epsilon : float) :
  length highs = length lows ->
  let N := length highs in
  let p := prescan highs lows epsilon (N - 1) 1 (init_cand highs lows)
                   (init_state N) in
  (trend_detected p = 1 ->
   (candidate_low_index (cands p) <= candidate_high_index (cands p))%nat) ->
  (trend_detected p = -1 ->
   (candidate_high_index (cands p) <= candidate_low_index (cands p))%nat) ->
  exists markers turning_points,
    calculate_zigzag highs lows epsilon = Ok (markers, turning_points) /\
    markers_alternate markers.
Proof.
  intros Hlen N p Hup Hdown.
  rewrite calculate_zigzag_run by assumption. fold N.
  eexists _, _. split; [reflexivity|].
  unfold run. fold p.
  pose proof (prescan_cases highs lows epsilon (N - 1) 1 (init_cand highs lows)
                (init_state N) ltac:(simpl; lia) ltac:(simpl; lia)) as Hc.
  cbv zeta in Hc. fold p in Hc.
  destruct Hc as [[Ht Hs] | (Hb & Hstop & Hcl & Hch)].
  - rewrite Ht. simpl. rewrite Hs. simpl.
    unfold markers_alternate. rewrite nonzero_replicate. reflexivity.
  - assert (Hinv : alt_inv N (S (stop_index p)) (out_state p)).
    { destruct Hb as [[Ht ->] | [Ht ->]].
      - apply confirm_up_alt_inv; [lia|auto|exact Hch].
      - apply confirm_down_alt_inv; [lia|auto|exact Hcl]. }
    assert (Hne : (trend_detected p =? 0) = false).
    { apply Z.eqb_neq. destruct Hb as [[Ht _] | [Ht _]]; lia. }
    rewrite Hne. replace (stop_index p + 1)%nat with (S (stop_index p)) by lia.
    eapply alt_inv_alternate.
    apply (main_loop_alt_inv highs lows epsilon N); [lia|exact Hinv].
Qed.

(** [markers_alternate_when_seed_follows] on scenario 3 of the
    specification: the trough is index 0, the candidate high index 3. *)
Lemma markers_alternate_when_seed_follows_witness :
  exists markers turning_points,
    calculate_zigzag [100;100;100;160;100]%float [100;100;100;100;100]%float
                     0.5 = Ok (markers, turning_points) /\
    markers_alternate markers.
Proof.
  apply (markers_alternate_when_seed_follows
           [100;100;100;160;100]%float [100;100;100;100;100]%float 0.5 eq_refl).
  - intros _. vm_compute. lia.
  - intros H. vm_compute in H. discriminate H.
Defined.

End ZigZagClaims.

(* ================================================================== *)
(** ** Further properties of the trade enumerator *)
(* ================================================================== *)

Module TradesMore.
Import Trades TradesSpec TradesFacts.

Section Signals.

Variables entry_data exit_data : list Z.

Lemma signal_inv_init (lo : Z) : signal_inv entry_data exit_data lo lo init_scan.
Proof.
  split; simpl; try (intros; discriminate); intros; lia.
Qed.

Lemma signal_step_inv (lo i : Z) (s : scan_state) :
  lo <= i -> scan_inv lo i s ->
  signal_inv entry_data exit_data lo i s ->
  signal_inv entry_data exit_data lo (i + 1)
             (scan_step entry_data exit_data i s).
Proof.
  intros Hlo [_ _ Her Hxr Hp] [Hef Hxf Hfst Hxfst Hnext Hflat Hopen].
  unfold scan_step.
  destruct Hp as [[Hc Hp] | [Hc (es & e0 & He & Hp & Hlt)]];
    pose proof (Forall2_length _ _ _ Hp) as Hlen; rewrite Hc; simpl.
  - (* flat *)
    destruct (Z.eqb_spec (rd entry_data i) 1) as [Hi|Hi].
    + (* an entry is recorded at [i] *)
      split; simpl.
      * intros k e Hk. apply lookup_snoc_Some in Hk as [[_ Hk] | [_ <-]]; eauto.
      * exact Hxf.
      * intros e j Hk Hj.
        apply lookup_snoc_Some in Hk as [[_ Hk] | [Hk <-]]; [eauto|].
        apply (Hflat Hc j Hj). intros x Hx.
        assert (exit_list s = []) as Hnil
            by (apply length_zero_iff_nil; lia).
        rewrite Hnil in Hx. discriminate.
      * intros k e x j Hk1 Hk2. apply lookup_lt_Some in Hk2 as Hk2'.
        rewrite lookup_app_l in Hk1 by lia. eauto.
      * intros k x e Hk1 Hk2.
        apply lookup_snoc_Some in Hk2 as [[_ Hk2] | [Hk2 <-]]; [eauto|].
        assert (Hlast : last (exit_list s) = Some x).
        { rewrite last_lookup, <- Hlen, <- Hk2. exact Hk1. }
        assert (Hx : lo < x < i).
        { rewrite Forall_lookup in Hxr. exact (Hxr _ _ Hk1). }
        split; [lia|]. intros j Hj. apply (Hflat Hc j); [lia|].
        intros x' Hx'. rewrite Hlast in Hx'. injection Hx' as <-. lia.
      * intros; discriminate.
      * intros _ e j Hl Hj. rewrite last_snoc in Hl. injection Hl as <-. lia.
    + (* nothing happens at [i] *)
      split; auto.
      * intros _ j Hj Hx. destruct (decide (j = i)) as [->|Hne]; [exact Hi|].
        apply (Hflat Hc j); [lia|exact Hx].
      * intros Hc'. rewrite Hc in Hc'. discriminate.
  - (* in position *)
    destruct (Z.eqb_spec (rd exit_data i) 1) as [Hi|Hi].
    + (* the exit is recorded at [i] *)
      assert (Hlast : last (entry_list s) = Some e0)
        by (rewrite He; apply last_snoc).
      split; simpl.
      * exact Hef.
      * intros k x Hk. apply lookup_snoc_Some in Hk as [[_ Hk] | [_ <-]]; eauto.
      * exact Hfst.
      * intros k e x j Hk1 Hk2 Hj.
        apply lookup_snoc_Some in Hk2 as [[_ Hk2] | [Hk2 <-]]; [eauto|].
        rewrite He, Hk2, <- Hlen, list_lookup_middle in Hk1 by reflexivity.
        injection Hk1 as <-. apply (Hopen Hc e0 j Hlast Hj).
      * intros k x e Hk1 Hk2. apply lookup_lt_Some in Hk2 as Hk2'.
        rewrite He, length_app in Hk2'. simpl in Hk2'.
        rewrite lookup_app_l in Hk1 by lia. eauto.
      * intros _ j Hj Hx. specialize (Hx i (last_snoc _ _)). lia.
      * intros; discriminate.
    + (* nothing happens at [i] *)
      split; auto.
      * intros Hc'. rewrite Hc in Hc'. discriminate.
      * intros _ e j Hl Hj. destruct (decide (j = i)) as [->|Hne]; [exact Hi|].
        apply (Hopen Hc e j Hl). lia.
Qed.

Lemma signal_inv_loop (n : nat) (lo i : Z) (s : scan_state) :
  lo <= i -> scan_inv lo i s ->
  signal_inv entry_data exit_data lo i s ->
  signal_inv entry_data exit_data lo (i + Z.of_nat n)
             (scan entry_data exit_data n i s).
Proof.
  revert i s. induction n as [|n IH]; intros i s Hlo Hinv Hsig.
  - simpl. replace (i + Z.of_nat 0) with i by lia. assumption.
  - cbn [scan]. replace (i + Z.of_nat (S n)) with ((i + 1) + Z.of_nat n) by lia.
    apply IH; [lia|apply scan_step_inv; assumption|].
    apply signal_step_inv; assumption.
Qed.

End Signals.

Lemma final_signal_inv (entry exit : list Z) (skip_first : Z) :
  0 <= skip_first < Z.of_nat (length entry) ->
  signal_inv entry exit skip_first (Z.of_nat (length entry))
             (final_scan entry exit skip_first).
Proof.
  intros H. unfold final_scan.
  set (n := Z.to_nat (Z.of_nat (length entry) - skip_first)).
  replace (Z.of_nat (length entry)) with (skip_first + Z.of_nat n) at 1 by lia.
  apply signal_inv_loop; [lia|apply scan_inv_init|apply signal_inv_init].
Qed.

(** The two lists of an [Ok] result, read off the final scan. *)
Lemma enumerate_trades_result (entry exit : list Z) (skip_first : Z)
      (entries exits : list Z) :
  enumerate_trades entry exit skip_first = Ok (entries, exits) ->
  let s := final_scan entry exit skip_first in
  0 <= skip_first < Z.of_nat (length entry) /\
  entries = entry_list s /\
  (current_position s = 0 /\ exits = exit_list s /\
   length (entry_list s) = length (exit_list s) \/
   current_position s = 1 /\
   exits = exit_list s ++ [Z.of_nat (length entry) - 1] /\
   length (entry_list s) = S (length (exit_list s))).
Proof.
  intros Hok s.
  destruct (enumerate_trades_ok _ _ _ _ Hok) as [Hlen Hs].
  rewrite (enumerate_trades_valid entry exit skip_first Hlen Hs) in Hok.
  pose proof (final_scan_inv entry exit skip_first Hs) as [_ _ _ _ Hp].
  fold s in Hok, Hp. unfold close_open in Hok.
  split; [exact Hs|].
  destruct Hp as [[Hc Hp] | [Hc (es & e0 & He & Hp & _)]];
    apply Forall2_length in Hp.
  - rewrite Hp, Z.ltb_irrefl in Hok. injection Hok as <- <-. auto.
  - assert (Hl : length (entry_list s) = S (length (exit_list s))).
    { rewrite He, length_app. simpl. lia. }
    rewrite Hl in Hok.
    destruct (Z.ltb_spec (Z.of_nat (length (exit_list s)))
                         (Z.of_nat (S (length (exit_list s))))); [|lia].
    injection Hok as <- <-. auto 10.
Qed.

Section Cover.

Variables entry_data exit_data : list Z.

Lemma cover_step_inv (lo i : Z) (s : scan_state) :
  scan_inv lo i s -> cover_inv entry_data lo i s ->
  cover_inv entry_data lo (i + 1) (scan_step entry_data exit_data i s).
Proof.
  intros [_ _ Her _ Hp] Hcov j Hj Hsig. unfold scan_step.
  destruct Hp as [[Hc Hp] | [Hc (es & e0 & He & Hp & _)]];
    pose proof (Forall2_length _ _ _ Hp) as Hlen; rewrite Hc; simpl.
  - (* flat *)
    assert (Hold : j < i ->
      exists (k : nat) (e x : Z),
        entry_list s !! k = Some e /\ exit_list s !! k = Some x /\ e <= j <= x).
    { intros Hlt. destruct (Hcov j ltac:(lia) Hsig) as [H | [Hc' _]];
        [exact H|rewrite Hc in Hc'; discriminate]. }
    destruct (Z.eqb_spec (rd entry_data i) 1) as [Hi|Hi]; simpl.
    + destruct (decide (j = i)) as [->|Hne].
      * right. split; [reflexivity|]. exists i. rewrite last_snoc. split; [reflexivity|lia].
      * left. destruct (Hold ltac:(lia)) as (k & e & x & H1 & H2 & H3).
        exists k, e, x. repeat split; try assumption; try lia.
        apply lookup_app_l_Some, H1.
    + rewrite Hc. left. apply Hold.
      destruct (decide (j = i)) as [->|Hne]; [contradiction|lia].
  - (* in position *)
    assert (Hlast : last (entry_list s) = Some e0)
      by (rewrite He; apply last_snoc).
    assert (He0 : lo <= e0 < i).
    { rewrite He, Forall_app, Forall_singleton in Her. tauto. }
    assert (Hold :
      (exists (k : nat) (e x : Z),
        entry_list s !! k = Some e /\ exit_list s !! k = Some x /\ e <= j <= x) \/
      e0 <= j).
    { destruct (decide (j = i)) as [->|Hne]; [right; lia|].
      destruct (Hcov j ltac:(lia) Hsig) as [H | [_ (e & Hl & Hle)]]; [left; exact H|].
      right. rewrite Hlast in Hl. injection Hl as <-. exact Hle. }
    destruct (Z.eqb_spec (rd exit_data i) 1) as [Hi|Hi]; simpl.
    + left. destruct Hold as [(k & e & x & H1 & H2 & H3) | Hle].
      * exists k, e, x. repeat split; try assumption; try lia.
        apply lookup_app_l_Some, H2.
      * exists (length (exit_list s)), e0, i. repeat split; try lia.
        -- rewrite He, <- Hlen. apply list_lookup_middle. reflexivity.
        -- apply list_lookup_middle. reflexivity.
    + rewrite Hc. destruct Hold as [H | Hle]; [left; exact H|].
      right. split; [reflexivity|]. exists e0. split; assumption.
Qed.

Lemma cover_inv_loop (n : nat) (lo i : Z) (s : scan_state) :
  lo <= i -> scan_inv lo i s -> cover_inv entry_data lo i s ->
  cover_inv entry_data lo (i + Z.of_nat n) (scan entry_data exit_data n i s).
Proof.
  revert i s. induction n as [|n IH]; intros i s Hlo Hinv Hcov.
  - simpl. replace (i + Z.of_nat 0) with i by lia. assumption.
  - cbn [scan]. replace (i + Z.of_nat (S n)) with ((i + 1) + Z.of_nat n) by lia.
    apply IH; [lia|apply scan_step_inv; assumption|].
    apply cover_step_inv; assumption.
Qed.

(** The scan reads the masks from its current index on only. *)
Lemma scan_ext (entry_data' exit_data' : list Z) (n : nat) (i : Z) (s : scan_state) :
  (forall j, i <= j -> rd entry_data j = rd entry_data' j /\
                       rd exit_data j = rd exit_data' j) ->
  scan entry_data exit_data n i s = scan entry_data' exit_data' n i s.
Proof.
  revert i s. induction n as [|n IH]; intros i s H; [reflexivity|].
  cbn [scan]. unfold scan_step.
  destruct (H i ltac:(lia)) as [-> ->].
  apply IH. intros j Hj. apply H. lia.
Qed.

End Cover.

Lemma final_cover_inv (entry exit : list Z) (skip_first : Z) :
  0 <= skip_first < Z.of_nat (length entry) ->
  cover_inv entry skip_first (Z.of_nat (length entry))
            (final_scan entry exit skip_first).
Proof.
  intros H. unfold final_scan.
  set (n := Z.to_nat (Z.of_nat (length entry) - skip_first)).
  replace (Z.of_nat (length entry)) with (skip_first + Z.of_nat n) at 1 by lia.
  apply cover_inv_loop; [lia|apply scan_inv_init|].
  intros j Hj. lia.
Qed.

End TradesMore.

Module TradesExtra.
Import Trades TradesSpec TradesFacts TradesMore.

(** X2. Every returned index lies in the scanned range
    [skip_first .. N-1], and every returned entry is an index whose
    entry mask is 1. *)
Theorem enumerate_trades_in_range (entry exit : list Z) (skip_first : Z)
        (entries exits : list Z) :
  enumerate_trades entry exit skip_first = Ok (entries, exits) ->
  Forall (fun e => skip_first <= e < Z.of_nat (length entry) /\ rd entry e = 1)
         entries /\
  Forall (fun x => skip_first <= x < Z.of_nat (length entry)) exits.
Proof.
  intros Hok.
  destruct (enumerate_trades_result _ _ _ _ _ Hok) as (Hs & -> & Hx).
  pose proof (final_scan_inv entry exit skip_first Hs) as [_ _ Her Hxr _].
  pose proof (final_signal_inv entry exit skip_first Hs) as [Hef _ _ _ _ _ _].
  split.
  - apply Forall_lookup. intros k e Hk. split; [|eauto].
    rewrite Forall_lookup in Her. eauto.
  - assert (Hxr' : Forall (fun x => skip_first <= x < Z.of_nat (length entry))
                          (exit_list (final_scan entry exit skip_first))).
    { eapply Forall_impl; [exact Hxr|]. simpl. intros; lia. }
    destruct Hx as [(_ & -> & _) | (_ & -> & _)]; [exact Hxr'|].
    apply Forall_app. split; [exact Hxr'|]. repeat constructor; lia.
Qed.

Lemma enumerate_trades_in_range_witness :
  Forall (fun e => 0 <= e < 6 /\ rd [0;1;0;0;1;0] e = 1) [1;4] /\
  Forall (fun x => 0 <= x < 6) [2;5].
Proof.
  exact (enumerate_trades_in_range [0;1;0;0;1;0] [0;0;1;0;0;0] 0 [1;4] [2;5]
                                   eq_refl).
Defined.

(** X3. The first returned entry is the first index from [skip_first]
    on whose entry mask is 1; exit signals before it are ignored. *)
Theorem enumerate_trades_first_entry (entry exit : list Z) (skip_first : Z)
        (entries exits : list Z) (e : Z) :
  enumerate_trades entry exit skip_first = Ok (entries, exits) ->
  entries !! 0%nat = Some e ->
  skip_first <= e /\ rd entry e = 1 /\
  forall j, skip_first <= j < e -> rd entry j <> 1.
Proof.
  intros Hok He.
  destruct (enumerate_trades_result _ _ _ _ _ Hok) as (Hs & -> & _).
  pose proof (final_scan_inv entry exit skip_first Hs) as [_ _ Her _ _].
  pose proof (final_signal_inv entry exit skip_first Hs) as [Hef _ Hfst _ _ _ _].
  rewrite Forall_lookup in Her. specialize (Her _ _ He).
  repeat split; [lia|eauto|]. intros j Hj. eapply Hfst; eauto.
Qed.

Lemma enumerate_trades_first_entry_witness :
  0 <= 2 /\ rd [9;0;1;1] 2 = 1 /\ forall j, 0 <= j < 2 -> rd [9;0;1;1] j <> 1.
Proof.
  exact (enumerate_trades_first_entry [9;0;1;1] [1;1;0;0] 0 [2] [3] 2
                                      eq_refl eq_refl).
Defined.

(** X4. The exit of every returned pair is the first index strictly
    after its entry whose exit mask is 1 (an exit signal on the entry's
    own index does not close it); when there is no such index up to the
    end of the data, the exit is [N - 1]. *)
Theorem enumerate_trades_exit_is_first (entry exit : list Z) (skip_first : Z)
        (entries exits : list Z) (k : nat) (e x : Z) :
  enumerate_trades entry exit skip_first = Ok (entries, exits) ->
  entries !! k = Some e -> exits !! k = Some x ->
  (forall j, e < j < x -> rd exit j <> 1) /\
  (e < x /\ rd exit x = 1 \/
   x = Z.of_nat (length entry) - 1 /\
   forall j, e < j < Z.of_nat (length entry) -> rd exit j <> 1).
Proof.
  intros Hok He Hx.
  destruct (enumerate_trades_result _ _ _ _ _ Hok) as (Hs & -> & Hr).
  set (s := final_scan entry exit skip_first) in *.
  pose proof (final_scan_inv entry exit skip_first Hs) as [_ _ _ _ Hp].
  pose proof (final_signal_inv entry exit skip_first Hs)
    as [_ Hxf _ Hxfst _ _ Hopen].
  fold s in Hp, Hxf, Hxfst, Hopen.
  assert (Hclosed : forall x', exit_list s !! k = Some x' ->
            (forall j, e < j < x' -> rd exit j <> 1) /\ e < x' /\ rd exit x' = 1).
  { intros x' Hx'. split; [intros j Hj; eapply Hxfst; eauto|].
    split; [|eauto].
    destruct Hp as [[_ Hp] | [_ (es & e0 & Hes & Hp & _)]].
    - eapply Forall2_lookup_lr; eauto.
    - apply lookup_lt_Some in Hx' as Hk.
      rewrite Hes, lookup_app_l in He
        by (rewrite (Forall2_length _ _ _ Hp); exact Hk).
      eapply Forall2_lookup_lr; eauto. }
  destruct Hr as [(_ & -> & _) | (Hc & -> & Hlen)].
  - destruct (Hclosed x Hx) as (H1 & H2 & H3). auto.
  - apply lookup_snoc_Some in Hx as [[_ Hx] | [Hk <-]].
    + destruct (Hclosed x Hx) as (H1 & H2 & H3). auto.
    + assert (Hlast : last (entry_list s) = Some e).
      { rewrite last_lookup, Hlen. simpl. rewrite <- Hk. exact He. }
      split; [|right; split; [reflexivity|]];
        intros j Hj; apply (Hopen Hc e j Hlast); lia.
Qed.

Lemma enumerate_trades_exit_is_first_witness :
  (forall j, 4 < j < 5 -> rd [0;0;1;0;0;0] j <> 1) /\
  (4 < 5 /\ rd [0;0;1;0;0;0] 5 = 1 \/
   5 = 6 - 1 /\ forall j, 4 < j < 6 -> rd [0;0;1;0;0;0] j <> 1).
Proof.
  exact (enumerate_trades_exit_is_first [0;1;0;0;1;0] [0;0;1;0;0;0] 0
           [1;4] [2;5] 1 4 5 eq_refl eq_refl eq_refl).
Defined.

(** X5. Trades do not overlap: every entry after the first lies strictly
    after the previous exit, and is the first index after that exit
    whose entry mask is 1 (an entry signal on the exit's own index does
    not open a position). *)
Theorem enumerate_trades_next_entry (entry exit : list Z) (skip_first : Z)
        (entries exits : list Z) (k : nat) (x e : Z) :
  enumerate_trades entry exit skip_first = Ok (entries, exits) ->
  exits !! k = Some x -> entries !! S k = Some e ->
  x < e /\ rd entry e = 1 /\ forall j, x < j < e -> rd entry j <> 1.
Proof.
  intros Hok Hx He.
  destruct (enumerate_trades_result _ _ _ _ _ Hok) as (Hs & -> & Hr).
  set (s := final_scan entry exit skip_first) in *.
  pose proof (final_signal_inv entry exit skip_first Hs)
    as [Hef _ _ _ Hnext _ _].
  fold s in Hef, Hnext.
  assert (Hx' : exit_list s !! k = Some x).
  { destruct Hr as [(_ & -> & _) | (_ & -> & Hlen)]; [exact Hx|].
    apply lookup_lt_Some in He. rewrite Hlen in He.
    rewrite lookup_app_l in Hx by lia. exact Hx. }
  destruct (Hnext k x e Hx' He) as [H1 H2].
  split; [exact H1|]. split; [eauto|exact H2].
Qed.

Lemma enumerate_trades_next_entry_witness :
  2 < 4 /\ rd [0;1;1;0;1;0] 4 = 1 /\
  forall j, 2 < j < 4 -> rd [0;1;1;0;1;0] j <> 1.
Proof.
  exact (enumerate_trades_next_entry [0;1;1;0;1;0] [0;0;1;0;0;0] 0
           [1;4] [2;5] 0 2 4 eq_refl eq_refl eq_refl).
Defined.

(** X6. No entry signal is missed: every index of the scanned range
    whose entry mask is 1 lies inside a returned trade, between its
    entry and its exit. Hence a call that returns no entry saw no entry
    signal in the range. *)
Theorem enumerate_trades_covers (entry exit : list Z) (skip_first : Z)
        (entries exits : list Z) (j : Z) :
  enumerate_trades entry exit skip_first = Ok (entries, exits) ->
  skip_first <= j < Z.of_nat (length entry) -> rd entry j = 1 ->
  exists (k : nat) (e x : Z),
    entries !! k = Some e /\ exits !! k = Some x /\ e <= j <= x.
Proof.
  intros Hok Hj Hsig.
  destruct (enumerate_trades_result _ _ _ _ _ Hok) as (Hs & -> & Hr).
  set (s := final_scan entry exit skip_first) in *.
  pose proof (final_cover_inv entry exit skip_first Hs j Hj Hsig) as Hcov.
  fold s in Hcov.
  destruct Hr as [(Hc & -> & _) | (Hc & -> & Hlen)].
  - destruct Hcov as [H | [Hc' _]]; [exact H|]. rewrite Hc in Hc'. discriminate.
  - destruct Hcov as [(k & e & x & H1 & H2 & H3) | (_ & e & Hl & Hle)].
    + exists k, e, x. repeat split; try assumption; try lia.
      apply lookup_app_l_Some, H2.
    + exists (length (exit_list s)), e, (Z.of_nat (length entry) - 1).
      repeat split; try lia.
      * rewrite last_lookup, Hlen in Hl. exact Hl.
      * apply list_lookup_middle. reflexivity.
Qed.

Lemma enumerate_trades_covers_witness :
  exists (k : nat) (e x : Z),
    [1;4] !! k = Some e /\ [2;5] !! k = Some x /\ e <= 2 <= x.
Proof.
  exact (enumerate_trades_covers [0;1;1;0;1;0] [0;0;1;0;0;0] 0 [1;4] [2;5] 2
           eq_refl ltac:(simpl; lia) eq_refl).
Defined.

(** X7. The mask elements before [skip_first] are never read: two pairs
    of masks of the same lengths that agree from [skip_first] on give
    the same result. *)
Theorem enumerate_trades_skips_prefix
        (entry exit entry' exit' : list Z) (skip_first : Z) :
  length entry = length entry' -> length exit = length exit' ->
  (forall j, skip_first <= j ->
             rd entry j = rd entry' j /\ rd exit j = rd exit' j) ->
  enumerate_trades entry exit skip_first =
  enumerate_trades entry' exit' skip_first.
Proof.
  intros He Hx H. unfold enumerate_trades. rewrite <- He, <- Hx.
  rewrite (scan_ext entry exit entry' exit' _ _ _ H). reflexivity.
Qed.

Lemma enumerate_trades_skips_prefix_witness :
  enumerate_trades [1;1;0;1;0] [0;1;0;0;1] 2 =
  enumerate_trades [0;0;0;1;0] [1;0;0;0;1] 2.
Proof.
  apply (enumerate_trades_skips_prefix [1;1;0;1;0] [0;1;0;0;1]
                                       [0;0;0;1;0] [1;0;0;0;1] 2);
    [reflexivity|reflexivity|].
  intros j Hj.
  assert (Hc : j = 2 \/ j = 3 \/ j = 4 \/ 5 <= j) by lia.
  destruct Hc as [-> | [-> | [-> | Hc]]]; try (split; reflexivity).
  unfold rd. rewrite !nth_overflow by (simpl; lia). split; reflexivity.
Defined.

Lemma rd_drop (a : list Z) (k : nat) (i : Z) :
  0 <= i -> rd (drop k a) i = rd a (i + Z.of_nat k).
Proof.
  intros Hi. unfold rd. rewrite !nth_lookup, lookup_drop.
  replace (Z.to_nat (i + Z.of_nat k)) with (k + Z.to_nat i)%nat by lia.
  reflexivity.
Qed.

Lemma scan_drop (entry exit : list Z) (k n : nat) (i : Z) (s : scan_state) :
  0 <= i ->
  scan entry exit n (i + Z.of_nat k) (shift_scan (Z.of_nat k) s) =
  shift_scan (Z.of_nat k) (scan (drop k entry) (drop k exit) n i s).
Proof.
  revert i s. induction n as [|n IH]; intros i s Hi; [reflexivity|].
  cbn [scan]. replace (i + Z.of_nat k + 1) with ((i + 1) + Z.of_nat k) by lia.
  rewrite <- IH by lia. f_equal.
  unfold scan_step. rewrite !rd_drop by lia. simpl.
  destruct ((current_position s =? 1) && (rd exit (i + Z.of_nat k) =? 1)).
  { unfold shift_scan. simpl. rewrite map_app. simpl.
    do 3 f_equal. lia. }
  destruct ((current_position s =? 0) && (rd entry (i + Z.of_nat k) =? 1)).
  { unfold shift_scan. simpl. rewrite map_app. simpl.
    do 3 f_equal. lia. }
  reflexivity.
Qed.

(** X12. Starting the scan at [skip_first] is the same as cutting the
    first [skip_first] elements off both masks, scanning the rest from
    0 and adding [skip_first] to every returned index. *)
Theorem enumerate_trades_skip_is_drop (entry exit : list Z) (k : nat) :
  length entry = length exit -> (k < length entry)%nat ->
  enumerate_trades entry exit (Z.of_nat k) =
  shift_result (Z.of_nat k) (enumerate_trades (drop k entry) (drop k exit) 0).
Proof.
  intros Hlen Hk.
  rewrite (enumerate_trades_valid entry exit (Z.of_nat k)) by (try lia; assumption).
  rewrite (enumerate_trades_valid (drop k entry) (drop k exit) 0)
    by (rewrite !length_drop; lia).
  unfold final_scan. rewrite length_drop.
  replace (Z.to_nat (Z.of_nat (length entry - k) - 0))
    with (Z.to_nat (Z.of_nat (length entry) - Z.of_nat k)) by lia.
  set (n := Z.to_nat (Z.of_nat (length entry) - Z.of_nat k)).
  pose proof (scan_drop entry exit k n 0 init_scan ltac:(lia)) as H.
  rewrite Z.add_0_l in H.
  change (shift_scan (Z.of_nat k) init_scan) with init_scan in H.
  rewrite H. unfold close_open, shift_result, shift_scan. simpl.
  rewrite !length_map.
  destruct (_ <? _); simpl; [|reflexivity].
  rewrite map_app. simpl. do 4 f_equal. lia.
Qed.

Lemma enumerate_trades_skip_is_drop_witness :
  enumerate_trades [1;1;0;1;0] [0;1;0;0;1] 2 =
  shift_result 2 (enumerate_trades [0;1;0] [0;0;1] 0).
Proof.
  exact (enumerate_trades_skip_is_drop [1;1;0;1;0] [0;1;0;0;1] 2
                                       eq_refl ltac:(simpl; lia)).
Defined.

End TradesExtra.

(* ================================================================== *)
(** ** Further properties of the zigzag detector *)
(* ================================================================== *)

Module ZigZagMore.
Import ZigZag ZigZagSpec FloatFacts ZigZagFacts.

(** A lookup in a zeroed buffer with one mark. *)
Lemma lookup_single_mark (N c k : nat) (v m : Z) :
  <[c := v]> (replicate N 0) !! k = Some m -> m <> 0 -> k = c /\ m = v.
Proof.
  intros Hk Hm. destruct (decide (c = k)) as [->|Hne].
  - apply list_lookup_insert_Some in Hk as [(_ & <- & _) | [Hne _]];
      [auto|contradiction].
  - rewrite list_lookup_insert_ne in Hk by exact Hne.
    apply lookup_replicate in Hk as [-> _]. contradiction.
Qed.

Lemma tp_inv_stay (N i : nat) (s : state) :
  tp_inv N i s -> tp_inv N (S i) s.
Proof.
  intros [H1 H2 H3 H4 H5 H6 H7 H8].
  assert (Hn : nonzero (take (S i) (turning_points_data s)) =
               nonzero (take i (turning_points_data s)))
    by (apply nonzero_take_past; [lia|exact H4]).
  split; auto.
  - apply (drop_zeros_le _ i); [lia|exact H4].
  - rewrite Hn. exact H5.
  - rewrite Hn. exact H6.
  - intros k m Hk Hm. destruct (H8 k m Hk Hm) as (j & v & Hj & Hv).
    exists j, v. split; [lia|exact Hv].
Qed.

(** The tracked extreme moves to the index handled. *)
Lemma tp_inv_move (N i : nat) (s : state) (v : float) :
  tp_inv N i s ->
  tp_inv N (S i) (State (direction s) i v (markers_data s)
                        (turning_points_data s)).
Proof.
  intros H. apply tp_inv_stay in H. destruct H as [H1 H2 H3 H4 H5 H6 H7 H8].
  split; simpl; auto.
Qed.

(** A reversal at [i]: the tracked extreme is marked, the confirmation
    is written at [i] with the sign of the new direction. *)
Lemma tp_inv_reverse (N i : nat) (s : state) (v : float) :
  (i < N)%nat -> tp_inv N i s ->
  tp_inv N (S i)
    (State (- direction s) i v
           (<[last_extreme_index s := direction s]> (markers_data s))
           (<[i := - direction s]> (turning_points_data s))).
Proof.
  intros Hi [H1 H2 H3 H4 H5 H6 [k0 [m0 [Hk0 Hm0]]] H8].
  assert (Hd : direction s <> 0 /\ - direction s <> 0 /\
               - direction s <> direction s) by lia.
  destruct Hd as (Hd0 & Hdn0 & Hdn).
  assert (Hz : Forall (eq 0) (drop (S i) (turning_points_data s)))
    by (apply (drop_zeros_le _ i); [lia|exact H4]).
  assert (Hn : nonzero (take (S i) (<[i := - direction s]> (turning_points_data s))) =
               nonzero (take i (turning_points_data s)) ++ [- direction s])
    by (apply nonzero_take_marked; try lia; assumption).
  split; simpl.
  - rewrite length_insert. exact H1.
  - lia.
  - lia.
  - rewrite drop_insert_lt by lia. exact Hz.
  - rewrite Hn. eapply ends_with_snoc; eauto.
  - rewrite Hn. intros Hnil. apply app_eq_nil in Hnil as [_ Hnil]. discriminate.
  - destruct (decide (k0 = last_extreme_index s)) as [->|Hne].
    + exists (last_extreme_index s), (direction s). split; [|exact Hd0].
      apply list_lookup_insert_eq. eapply lookup_lt_Some, Hk0.
    + exists k0, m0. split; [|exact Hm0].
      rewrite list_lookup_insert_ne by congruence. exact Hk0.
  - intros k m Hk Hm.
    destruct (decide (k = last_extreme_index s)) as [->|Hne].
    + exists i, (- direction s). split; [lia|]. split; [|exact Hdn0].
      apply list_lookup_insert_eq. lia.
    + rewrite list_lookup_insert_ne in Hk by congruence.
      destruct (H8 k m Hk Hm) as (j & w & Hj & Hw & Hw0).
      exists j, w. split; [lia|]. split; [|exact Hw0].
      rewrite list_lookup_insert_ne by lia. exact Hw.
Qed.

Section More.

Variables highs lows : list float.
Variable epsilon : float.

Abbreviation track := (track highs lows).
Abbreviation up_trigger := (up_trigger highs epsilon).
Abbreviation down_trigger := (down_trigger lows epsilon).
Abbreviation prescan := (prescan highs lows epsilon).
Abbreviation main_step := (main_step highs lows epsilon).
Abbreviation main_loop := (main_loop highs lows epsilon).
Abbreviation init_cand := (init_cand highs lows).
Abbreviation candidates := (candidates highs lows).
Abbreviation quiet := (quiet highs lows epsilon).

Lemma main_step_tp_inv (N i : nat) (s : state) :
  (i < N)%nat -> tp_inv N i s -> tp_inv N (S i) (main_step i s).
Proof.
  intros Hi Hinv. pose proof (ti_direction _ _ _ Hinv) as Hd.
  destruct s as [d le lev m t]. simpl in Hd.
  unfold ZigZag.main_step.
  destruct Hd as [-> | ->]; simpl;
    destruct (ratio_test _ _ _); simpl;
    try destruct (fgt _ _); try destruct (flt _ _); simpl;
    first [ exact (tp_inv_reverse N i _ _ Hi Hinv)
          | exact (tp_inv_move N i _ _ Hinv)
          | exact (tp_inv_stay N i _ Hinv) ].
Qed.

Lemma main_loop_tp_inv (N n i : nat) (s : state) :
  (i + n <= N)%nat -> tp_inv N i s -> tp_inv N (i + n) (main_loop n i s).
Proof.
  revert i s. induction n as [|n IH]; intros i s Hn Hinv.
  - rewrite Nat.add_0_r. exact Hinv.
  - cbn [ZigZag.main_loop]. replace (i + S n)%nat with (S i + n)%nat by lia.
    apply IH; [lia|]. apply main_step_tp_inv; [lia|exact Hinv].
Qed.

Lemma confirm_up_tp_inv (N i : nat) (c : cand) :
  (i < N)%nat ->
  (candidate_low_index c <= i)%nat -> (candidate_high_index c <= i)%nat ->
  tp_inv N (S i) (confirm_up i c (init_state N)).
Proof.
  intros Hi Hl Hh.
  assert (Hn : nonzero (take (S i) (<[i := 1]> (replicate N 0))) = [1]).
  { rewrite nonzero_take_single by lia.
    destruct (decide (i < S i)%nat); [reflexivity|lia]. }
  split; simpl.
  - rewrite length_insert. apply length_replicate.
  - left; reflexivity.
  - lia.
  - rewrite drop_insert_lt, drop_replicate by lia. apply Forall_replicate_eq.
  - rewrite Hn. split; auto.
  - rewrite Hn. discriminate.
  - exists (candidate_low_index c), (-1). split; [|lia].
    apply list_lookup_insert_eq. rewrite length_replicate. lia.
  - intros k m Hk Hm. apply lookup_single_mark in Hk as [-> _]; [|exact Hm].
    exists i, 1. split; [lia|]. split; [|lia].
    apply list_lookup_insert_eq. rewrite length_replicate. lia.
Qed.

Lemma confirm_down_tp_inv (N i : nat) (c : cand) :
  (i < N)%nat ->
  (candidate_low_index c <= i)%nat -> (candidate_high_index c <= i)%nat ->
  tp_inv N (S i) (confirm_down i c (init_state N)).
Proof.
  intros Hi Hl Hh.
  assert (Hn : nonzero (take (S i)
                 (<[candidate_high_index c := -1]> (replicate N 0))) = [-1]).
  { rewrite nonzero_take_single by lia.
    destruct (decide (candidate_high_index c < S i)%nat); [reflexivity|lia]. }
  split; simpl.
  - rewrite length_insert. apply length_replicate.
  - right; reflexivity.
  - lia.
  - rewrite drop_insert_lt, drop_replicate by lia. apply Forall_replicate_eq.
  - rewrite Hn. split; auto.
  - rewrite Hn. discriminate.
  - exists (candidate_high_index c), 1. split; [|lia].
    apply list_lookup_insert_eq. rewrite length_replicate. lia.
  - intros k m Hk Hm. apply lookup_single_mark in Hk as [-> _]; [|exact Hm].
    exists (candidate_high_index c), (-1). split; [lia|]. split; [|lia].
    apply list_lookup_insert_eq. rewrite length_replicate. lia.
Qed.

(** The state in which the call returns: the zeroed buffers when no
    trend was detected, a state that satisfies [tp_inv] at [N]
    otherwise. *)
Lemma run_cases (N : nat) :
  let p := prescan (N - 1) 1 init_cand (init_state N) in
  (trend_detected p = 0 /\ run highs lows epsilon N = init_state N) \/
  (trend_detected p <> 0 /\ tp_inv N N (run highs lows epsilon N)).
Proof.
  intros p. unfold run. fold p.
  pose proof (prescan_cases highs lows epsilon (N - 1) 1 init_cand
                (init_state N) ltac:(simpl; lia) ltac:(simpl; lia)) as Hc.
  cbv zeta in Hc. fold p in Hc.
  destruct Hc as [[Ht Hs] | (Hb & Hstop & Hcl & Hch)].
  - left. rewrite Ht. simpl. auto.
  - right.
    assert (Hinv : tp_inv N (S (stop_index p)) (out_state p)).
    { destruct Hb as [[Ht ->] | [Ht ->]].
      - apply confirm_up_tp_inv; [lia|exact Hcl|exact Hch].
      - apply confirm_down_tp_inv; [lia|exact Hcl|exact Hch]. }
    assert (Hne : trend_detected p <> 0)
      by (destruct Hb as [[Ht _] | [Ht _]]; lia).
    split; [exact Hne|].
    apply Z.eqb_neq in Hne. rewrite Hne.
    replace (stop_index p + 1)%nat with (S (stop_index p)) by lia.
    pose proof (main_loop_tp_inv N (N - S (stop_index p)) (S (stop_index p))
                  (out_state p) ltac:(lia) Hinv) as H.
    replace (S (stop_index p) + (N - S (stop_index p)))%nat with N in H by lia.
    exact H.
Qed.

(** A pre-scan that detects no trend ran through quiet indices only. *)
Lemma prescan_zero_quiet (n i : nat) (s : state) :
  trend_detected (prescan n (S i) (candidates i) s) = 0 ->
  forall j, (i < j <= i + n)%nat -> quiet j.
Proof.
  revert i. induction n as [|n IH]; intros i Ht j Hj; [lia|].
  cbn [ZigZag.prescan] in Ht.
  change (track (S i) (candidates i)) with (candidates (S i)) in Ht.
  destruct (up_trigger (S i) (candidates (S i))) eqn:Hu; [discriminate|].
  destruct (down_trigger (S i) (candidates (S i))) eqn:Hd; [discriminate|].
  destruct (decide (j = S i)) as [->|Hne]; [split; assumption|].
  apply (IH (S i) Ht). lia.
Qed.

End More.

(** The test against a NaN threshold always fails. *)
Lemma ratio_test_nan (x y epsilon : float) :
  (epsilon =? epsilon)%float = false -> ratio_test x y epsilon = false.
Proof.
  unfold ratio_test, fge. rewrite FloatAxioms.eqb_spec, leb_spec.
  unfold SFeqb, SFleb, SFcompare.
  destruct (Prim2SF epsilon) as [s|s| |s m e]; try destruct s;
    try discriminate; try reflexivity;
    rewrite Z.compare_refl; change (Pos.compare_cont Eq) with Pos.compare;
    rewrite Pos.compare_refl; discriminate.
Qed.

End ZigZagMore.

Module ZigZagExtra.
Import ZigZag ZigZagSpec FloatFacts ZigZagFacts ZigZagMore.

(** X8. The nonzero entries of the returned turning points, read in
    index order, alternate in sign on every input, whatever the
    candidates of the pre-scan are. *)
Theorem turning_points_alternate (highs lows : list float) (epsilon : float) :
  length highs = length lows ->
  exists markers turning_points,
    calculate_zigzag highs lows epsilon = Ok (markers, turning_points) /\
    alternates (nonzero turning_points) = true.
Proof.
  intros Hlen. rewrite calculate_zigzag_run by assumption.
  eexists _, _. split; [reflexivity|].
  destruct (run_cases highs lows epsilon (length highs)) as [[_ ->] | [_ Hinv]].
  - simpl. rewrite nonzero_replicate. reflexivity.
  - destruct Hinv as [H1 _ _ _ [H5 _] _ _ _].
    rewrite take_ge in H5 by lia. exact H5.
Qed.

(** [turning_points_alternate] on the input whose markers do not
    alternate. *)
Lemma turning_points_alternate_witness :
  exists markers turning_points,
    calculate_zigzag [200;150;100;150]%float [100;50;50;50]%float 0.5 =
      Ok (markers, turning_points) /\
    alternates (nonzero turning_points) = true.
Proof.
  exact (turning_points_alternate [200;150;100;150]%float
                                  [100;50;50;50]%float 0.5 eq_refl).
Defined.

(** X9. The returned turning points are all zero exactly when no index
    satisfies a trigger condition of the pre-scan, and so are the
    returned markers: as soon as one trigger fires, each array has a
    nonzero entry. *)
Theorem zigzag_zero_iff_quiet (highs lows : list float) (epsilon : float)
        (markers turning_points : list Z) :
  length highs = length lows ->
  calculate_zigzag highs lows epsilon = Ok (markers, turning_points) ->
  ((forall j, (1 <= j < length highs)%nat -> quiet highs lows epsilon j) <->
   turning_points = replicate (length highs) 0) /\
  ((forall j, (1 <= j < length highs)%nat -> quiet highs lows epsilon j) <->
   markers = replicate (length highs) 0).
Proof.
  intros Hlen Hok. rewrite calculate_zigzag_run in Hok by assumption.
  injection Hok as <- <-.
  assert (Hq : (forall j, (1 <= j < length highs)%nat -> quiet highs lows epsilon j) ->
               run highs lows epsilon (length highs) = init_state (length highs))
    by apply run_quiet.
  destruct (run_cases highs lows epsilon (length highs)) as [[Ht Hr] | [Ht Hinv]].
  - assert (Hall : forall j, (1 <= j < length highs)%nat -> quiet highs lows epsilon j).
    { intros j Hj.
      apply (prescan_zero_quiet highs lows epsilon (length highs - 1) 0
                                (init_state (length highs)) Ht). lia. }
    rewrite Hr. simpl. split; split; auto.
  - destruct Hinv as [H1 _ _ _ _ H6 (k & m & Hk & Hm) _].
    split; split; intros H.
    + apply Hq in H. exfalso. apply H6. rewrite H. simpl.
      rewrite take_replicate. apply nonzero_replicate.
    + exfalso. apply H6. rewrite H, take_replicate. apply nonzero_replicate.
    + apply Hq in H. exfalso. rewrite H in Hk. simpl in Hk.
      apply lookup_replicate in Hk as [-> _]. contradiction.
    + exfalso. rewrite H in Hk. apply lookup_replicate in Hk as [-> _].
      contradiction.
Qed.

Lemma zigzag_zero_iff_quiet_witness :
  ((forall j, (1 <= j < 2)%nat -> quiet [200;100]%float [190;100]%float 0.5 j) <->
   [-1; 0] = replicate 2 0) /\
  ((forall j, (1 <= j < 2)%nat -> quiet [200;100]%float [190;100]%float 0.5 j) <->
   [1; 0] = replicate 2 0).
Proof.
  exact (zigzag_zero_iff_quiet [200;100]%float [190;100]%float 0.5
                               [1; 0] [-1; 0] eq_refl eq_refl).
Defined.

(** X10. A NaN threshold is not rejected: every comparison against it
    fails, no trigger fires and both returned arrays are all zero. *)
Theorem zigzag_nan_epsilon (highs lows : list float) (epsilon : float) :
  length highs = length lows ->
  (epsilon =? epsilon)%float = false ->
  calculate_zigzag highs lows epsilon =
  Ok (replicate (length highs) 0, replicate (length highs) 0).
Proof.
  intros Hlen He. rewrite calculate_zigzag_run by assumption.
  rewrite run_quiet; [reflexivity|].
  intros j _. split; apply ratio_test_nan, He.
Qed.

Lemma zigzag_nan_epsilon_witness :
  calculate_zigzag [100;300;10]%float [100;200;5]%float nan =
  Ok ([0;0;0], [0;0;0]).
Proof.
  exact (zigzag_nan_epsilon [100;300;10]%float [100;200;5]%float nan
                            eq_refl eq_refl).
Defined.

(** X11. Every marked index lies at or before a confirmation: for each
    nonzero marker there is a nonzero turning point at the same or a
    later index. Hence no index after the last nonzero turning point is
    marked. *)
Theorem marked_before_confirmation (highs lows : list float) (epsilon : float)
        (markers turning_points : list Z) :
  length highs = length lows ->
  calculate_zigzag highs lows epsilon = Ok (markers, turning_points) ->
  (forall (k : nat) (m : Z),
      markers !! k = Some m -> m <> 0 ->
      exists (j : nat) (v : Z),
        (k <= j)%nat /\ turning_points !! j = Some v /\ v <> 0) /\
  (forall (J : nat),
      (forall (j : nat) (v : Z),
          (J < j)%nat -> turning_points !! j = Some v -> v = 0) ->
      forall (k : nat) (m : Z),
        (J < k)%nat -> markers !! k = Some m -> m = 0).
Proof.
  intros Hlen Hok. rewrite calculate_zigzag_run in Hok by assumption.
  injection Hok as <- <-.
  assert (Hmark : forall (k : nat) (m : Z),
    markers_data (run highs lows epsilon (length highs)) !! k = Some m ->
    m <> 0 ->
    exists (j : nat) (v : Z),
      (k <= j)%nat /\
      turning_points_data (run highs lows epsilon (length highs)) !! j = Some v /\
      v <> 0).
  { intros k m Hk Hm.
    destruct (run_cases highs lows epsilon (length highs)) as [[_ Hr] | [_ Hinv]].
    - rewrite Hr in Hk. simpl in Hk. apply lookup_replicate in Hk as [-> _].
      contradiction.
    - destruct (ti_marked _ _ _ Hinv k m Hk Hm) as (j & v & Hj & Hv & Hv0).
      exists j, v. split; [lia|]. split; assumption. }
  split; [exact Hmark|].
  intros J HJ k m Hk Hm. destruct (decide (m = 0)) as [Hz|Hnz]; [exact Hz|].
  destruct (Hmark k m Hm Hnz) as (j & v & Hj & Hv & Hv0).
  exfalso. apply Hv0. apply (HJ j v); [lia|exact Hv].
Qed.

Lemma marked_before_confirmation_witness :
  (exists (j : nat) (v : Z),
      (2 <= j)%nat /\ [0; 1; -1; 1] !! j = Some v /\ v <> 0) /\
  [1; -1; -1; 0] !! 3%nat = Some 0.
Proof.
  destruct (marked_before_confirmation [200;150;100;150]%float
              [100;50;50;50]%float 0.5 [1; -1; -1; 0] [0; 1; -1; 1]
              eq_refl eq_refl) as [H1 _].
  split; [|reflexivity].
  exact (H1 2%nat (-1) eq_refl ltac:(lia)).
Defined.

Lemma nonzero_insert_length (l : list Z) (k : nat) (v : Z) :
  (length (nonzero (<[k := v]> l)) <= S (length (nonzero l)))%nat.
Proof.
  revert k. induction l as [|a l IH]; intros k; [simpl; lia|].
  destruct k as [|k]; simpl.
  - destruct (v =? 0), (a =? 0); simpl; lia.
  - specialize (IH k). destruct (a =? 0); simpl; lia.
Qed.

Lemma count_inv_stay (N i : nat) (s : state) :
  tp_inv N i s -> count_inv i s -> count_inv (S i) s.
Proof.
  intros Hinv Hc. unfold count_inv in *.
  rewrite (nonzero_take_past _ i (S i)); [exact Hc|lia|].
  apply (ti_tail _ _ _ Hinv).
Qed.

Lemma count_inv_reverse (N i : nat) (s : state) (v : float) :
  (i < N)%nat -> tp_inv N i s -> count_inv i s ->
  count_inv (S i)
    (State (- direction s) i v
           (<[last_extreme_index s := direction s]> (markers_data s))
           (<[i := - direction s]> (turning_points_data s))).
Proof.
  intros Hi Hinv Hc. unfold count_inv in *. simpl.
  pose proof (ti_direction _ _ _ Hinv) as Hd.
  rewrite nonzero_take_marked.
  - rewrite length_app. simpl.
    pose proof (nonzero_insert_length (markers_data s)
                  (last_extreme_index s) (direction s)). lia.
  - rewrite (ti_turning_length _ _ _ Hinv). exact Hi.
  - lia.
  - lia.
  - apply (drop_zeros_le _ i); [lia|apply (ti_tail _ _ _ Hinv)].
Qed.

Lemma main_step_count_inv (highs lows : list float) (epsilon : float)
      (N i : nat) (s : state) :
  (i < N)%nat -> tp_inv N i s -> count_inv i s ->
  count_inv (S i) (main_step highs lows epsilon i s).
Proof.
  intros Hi Hinv Hc. pose proof (ti_direction _ _ _ Hinv) as Hd.
  destruct s as [d le lev m t]. simpl in Hd.
  unfold main_step.
  destruct Hd as [-> | ->]; simpl;
    destruct (ratio_test _ _ _); simpl;
    try destruct (fgt _ _); try destruct (flt _ _); simpl;
    first [ exact (count_inv_reverse N i _ _ Hi Hinv Hc)
          | exact (count_inv_stay N i _ Hinv Hc) ].
Qed.

Lemma main_loop_count_inv (highs lows : list float) (epsilon : float)
      (N n i : nat) (s : state) :
  (i + n <= N)%nat -> tp_inv N i s -> count_inv i s ->
  count_inv (i + n) (main_loop highs lows epsilon n i s).
Proof.
  revert i s. induction n as [|n IH]; intros i s Hn Hinv Hc.
  - rewrite Nat.add_0_r. exact Hc.
  - cbn [main_loop]. replace (i + S n)%nat with (S i + n)%nat by lia.
    apply IH; [lia|apply main_step_tp_inv; [lia|exact Hinv]|].
    apply (main_step_count_inv highs lows epsilon N); [lia|exact Hinv|exact Hc].
Qed.

(** X13. The returned markers never hold more nonzero entries than the
    returned turning points (they can hold fewer, when a later reversal
    re-marks the index the pre-scan marked). *)
Theorem markers_at_most_turning_points
        (highs lows : list float) (epsilon : float) :
  length highs = length lows ->
  exists markers turning_points,
    calculate_zigzag highs lows epsilon = Ok (markers, turning_points) /\
    (length (nonzero markers) <= length (nonzero turning_points))%nat.
Proof.
  intros Hlen. rewrite calculate_zigzag_run by assumption.
  eexists _, _. split; [reflexivity|].
  set (N := length highs). unfold run.
  pose proof (prescan_cases highs lows epsilon (N - 1) 1 (init_cand highs lows)
                (init_state N) ltac:(simpl; lia) ltac:(simpl; lia)) as Hc.
  cbv zeta in Hc.
  set (p := prescan highs lows epsilon (N - 1) 1 (init_cand highs lows)
                    (init_state N)) in *.
  destruct Hc as [[Ht Hs] | (Hb & Hstop & Hcl & Hch)].
  - rewrite Ht. simpl. rewrite Hs. simpl. rewrite nonzero_replicate. simpl. lia.
  - assert (Hinv : tp_inv N (S (stop_index p)) (out_state p) /\
                   count_inv (S (stop_index p)) (out_state p)).
    { destruct Hb as [[Ht ->] | [Ht ->]].
      - split; [apply confirm_up_tp_inv; [lia|exact Hcl|exact Hch]|].
        unfold count_inv. simpl. rewrite nonzero_take_single by lia.
        destruct (decide _); [|lia].
        rewrite <- (take_ge (<[_ := _]> _) N)
          by (rewrite length_insert, length_replicate; lia).
        rewrite nonzero_take_single by lia. destruct (decide _); simpl; lia.
      - split; [apply confirm_down_tp_inv; [lia|exact Hcl|exact Hch]|].
        unfold count_inv. simpl. rewrite nonzero_take_single by lia.
        destruct (decide _); [|lia].
        rewrite <- (take_ge (<[_ := _]> _) N)
          by (rewrite length_insert, length_replicate; lia).
        rewrite nonzero_take_single by lia. destruct (decide _); simpl; lia. }
    destruct Hinv as [Hinv Hcnt].
    assert (Hne : (trend_detected p =? 0) = false).
    { apply Z.eqb_neq. destruct Hb as [[Ht _] | [Ht _]]; lia. }
    rewrite Hne. replace (stop_index p + 1)%nat with (S (stop_index p)) by lia.
    pose proof (main_loop_count_inv highs lows epsilon N (N - S (stop_index p))
                  (S (stop_index p)) (out_state p) ltac:(lia) Hinv Hcnt) as H.
    pose proof (main_loop_tp_inv highs lows epsilon N (N - S (stop_index p))
                  (S (stop_index p)) (out_state p) ltac:(lia) Hinv) as H'.
    unfold count_inv in H.
    rewrite take_ge in H by (rewrite (ti_turning_length _ _ _ H'); lia).
    exact H.
Qed.

Lemma markers_at_most_turning_points_witness :
  exists markers turning_points,
    calculate_zigzag [200;150;150]%float [100;120;100]%float 0.5 =
      Ok (markers, turning_points) /\
    (length (nonzero markers) <= length (nonzero turning_points))%nat.
Proof.
  exact (markers_at_most_turning_points [200;150;150]%float
                                        [100;120;100]%float 0.5 eq_refl).
Defined.

End ZigZagExtra.
